(** * GPS EXIF embedding: a shallow embedding of [gps.py]

    The model comes first, in the order of the source file:
    - [PyFloat]: Python's [float] (IEEE-754 binary64) on top of the
      Standard Library's [SpecFloat], with [int()], [round()] and the
      implicit [int -> float] coercion of mixed arithmetic;
    - [to_deg]: the degrees / minutes / seconds encoder;
    - [add_gps_to_image]: the load / guard / merge / write pipeline, over
      an explicit world (the files and the trace of collaborator calls).
    Then the definitions the proofs use (binary64 values as integers on
    the grid of [2 ^ (-1074)], worked examples), and the proofs: the
    rounding core of [SpecFloat], its operations on the grid, the range
    and error analysis of [to_deg], and the runs of [add_gps_to_image]. *)

From Stdlib Require Import ZArith QArith Qabs Lia Lqa Bool List Sorted.
From Stdlib Require Import SpecFloat.
From stdpp Require Import gmap strings.

Local Open Scope Z_scope.

(** ** Exceptions and the error monad *)

(** The exceptions the module can raise, named as in the source.  The
    payload tells the raise sites apart. *)
Inductive value_error : Type :=
  | UnsupportedFormat (img_format : string)   (* gps.py line 37 *)
  | FloatNaNToInteger.                        (* int(nan), round(nan) *)

Inductive collaborator : Type :=
  | ImageOpen | PiexifLoad | PiexifDump | PiexifInsert.

Inductive exn : Type :=
  | FileNotFoundError                 (* gps.py line 29 *)
  | ValueError (why : value_error)
  | RuntimeError                      (* gps.py line 47 *)
  | OverflowError                     (* int(inf), round(inf), huge int -> float *)
  | CollaboratorError (c : collaborator).

Inductive result (A : Type) : Type :=
  | Ok (a : A)
  | Raise (e : exn).
Arguments Ok {A} a.
Arguments Raise {A} e.

(** Sequencing: the first exception raised aborts the rest. *)
#[export] Instance result_ret : MRet result := fun _ a => Ok a.
#[export] Instance result_bind : MBind result := fun _ _ k r =>
  match r with
  | Ok a => k a
  | Raise e => Raise e
  end.

(** ** Python floats *)

Module PyFloat.

Definition prec : Z := 53.
Definition emax : Z := 1024.

(** A Python [float] is a binary64 datum; the well-formed ones satisfy
    [valid_binary prec emax]. *)
Definition float : Type := spec_float.

Definition valid (x : float) : bool := valid_binary prec emax x.

Definition is_finite (x : float) : bool :=
  match x with
  | S754_zero _ | S754_finite _ _ _ => true
  | S754_infinity _ | S754_nan => false
  end.

Definition fsub : float -> float -> float := SFsub prec emax.
Definition fmul : float -> float -> float := SFmul prec emax.
Definition fdiv : float -> float -> float := SFdiv prec emax.
Definition fabs : float -> float := SFabs.
Definition fle : float -> float -> bool := SFleb.
Definition flt : float -> float -> bool := SFltb.

Definition fzero : float := S754_zero false.

(** Round to nearest, ties to even, of the quotient [a / b] ([0 < b]). *)
Definition rne_div (a b : Z) : Z :=
  let q := a / b in
  match (2 * (a mod b)) ?= b with
  | Lt => q
  | Eq => if Z.even q then q else q + 1
  | Gt => q + 1
  end.

(** [int(x)]: truncation toward zero; [OverflowError] on an infinity,
    [ValueError] on a NaN. *)
Definition py_int (x : float) : result Z :=
  match x with
  | S754_zero _ => Ok 0
  | S754_finite s m e =>
      Ok (cond_Zopp s (if 0 <=? e then Zpos m * 2 ^ e
                       else Zpos m / 2 ^ (- e)))
  | S754_infinity _ => Raise OverflowError
  | S754_nan => Raise (ValueError FloatNaNToInteger)
  end.

(** [round(x)] with one argument: nearest integer, ties to even. *)
Definition py_round (x : float) : result Z :=
  match x with
  | S754_zero _ => Ok 0
  | S754_finite s m e =>
      Ok (cond_Zopp s (if 0 <=? e then Zpos m * 2 ^ e
                       else rne_div (Zpos m) (2 ^ (- e))))
  | S754_infinity _ => Raise OverflowError
  | S754_nan => Raise (ValueError FloatNaNToInteger)
  end.

(** The float nearest to an integer, ties to even. *)
Definition Z2F (z : Z) : float := binary_normalize prec emax z 0 false.

(** The coercion of an [int] operand in mixed arithmetic: correctly
    rounded, [OverflowError] when the integer is too large. *)
Definition float_of_int (z : Z) : result float :=
  match Z2F z with
  | S754_infinity _ => Raise OverflowError
  | f => Ok f
  end.

(** [x - z] and [x * z] for a float [x] and an int [z]. *)
Definition fsub_int (x : float) (z : Z) : result float :=
  y ← float_of_int z; Ok (fsub x y).

Definition fmul_int (x : float) (z : Z) : result float :=
  y ← float_of_int z; Ok (fmul x y).

(** The exact rational value of a finite float. *)
Definition SF2Q (x : float) : Q :=
  match x with
  | S754_finite s m e =>
      if 0 <=? e then inject_Z (cond_Zopp s (Zpos m * 2 ^ e))
      else Qmake (cond_Zopp s (Zpos m)) (Z.to_pos (2 ^ (- e)))
  | _ => 0%Q
  end.

(** Truncation toward zero and rounding to nearest-even of a rational. *)
Definition Qtrunc (q : Q) : Z := Z.quot (Qnum q) (Zpos (Qden q)).

Definition Qround_half_even (q : Q) : Z := rne_div (Qnum q) (Zpos (Qden q)).

End PyFloat.

Import PyFloat.

(** ** [to_deg] (gps.py lines 10-20) *)

Definition rational : Type := (Z * Z)%type.
Definition dms : Type := (rational * rational * rational)%type.

Definition to_deg (value : float) : result dms :=
  deg ← py_int value;
  frac ← fsub_int value deg;
  min_float ← fmul_int frac 60;
  minutes ← py_int min_float;
  rest ← fsub_int min_float minutes;
  sec60 ← fmul_int rest 60;
  sec_scaled ← fmul_int sec60 10000;
  sec ← py_round sec_scaled;
  Ok ((deg, 1), (minutes, 1), (sec, 10000)).

(** A triple read back as decimal degrees:
    degrees + minutes / 60 + seconds / 3600. *)
Definition dms_to_degrees (t : dms) : Q :=
  let '((dn, dd), (mn, md), (sn, sd)) := t in
  (inject_Z dn / inject_Z dd
   + (inject_Z mn / inject_Z md) / 60
   + (inject_Z sn / inject_Z sd) / 3600)%Q.

(** ** The EXIF tag tree and the world *)

(** Tag values as piexif holds them. *)
Inductive tag_value : Type :=
  | TagBytes (b : string)
  | TagInt (n : Z)
  | TagRational (r : rational)
  | TagRationals (rs : list rational).

(** What the tag tree maps a group name to: an IFD (tag id -> value), or,
    under ["thumbnail"], an optional byte blob. *)
Inductive group : Type :=
  | Ifd (tags : gmap Z tag_value)
  | Thumbnail (data : option string).

(** piexif's [GPSIFD] tag ids (EXIF GPS schema). *)
Module GPSIFD.
Definition GPSLatitudeRef : Z := 1.
Definition GPSLatitude : Z := 2.
Definition GPSLongitudeRef : Z := 3.
Definition GPSLongitude : Z := 4.
End GPSIFD.

(** Python truthiness of a value stored in the tag tree, and of
    [dict.get]'s result. *)
Definition truthy_bytes (b : string) : bool :=
  match b with
  | EmptyString => false
  | String _ _ => true
  end.

Definition truthy_group (g : group) : bool :=
  match g with
  | Ifd tags => negb (Nat.eqb (size tags) 0)
  | Thumbnail None => false
  | Thumbnail (Some b) => truthy_bytes b
  end.

Definition truthy_get (o : option group) : bool :=
  match o with
  | None => false
  | Some g => truthy_group g
  end.

(** gps.py line 43. *)
Definition empty_exif : gmap string group :=
  <["0th" := Ifd ∅]> (<["Exif" := Ifd ∅]> (<["GPS" := Ifd ∅]>
  (<["1st" := Ifd ∅]> (<["thumbnail" := Thumbnail None]> ∅)))).

(** The external collaborators: PIL's [Image.open] (format and
    [info.get('exif')]), and piexif's [load], [dump] and [insert].  [None]
    stands for an exception raised inside the library; [insert] returns the
    file's new contents and whether it completed. *)
Record collaborators : Type := {
  image_open : string -> option (string * option string);
  piexif_load : string -> option (gmap string group);
  piexif_dump : gmap string group -> option string;
  piexif_insert : string -> string -> string * bool
}.

Inductive event : Type :=
  | EvOpen (path : string)
  | EvLoad (blob : string)
  | EvDump (exif_dict : gmap string group)
  | EvInsert (exif_bytes : string) (path : string)
  | EvPrint (path : string).

(** The world: the files by path, and the collaborator calls made so far
    (oldest first). *)
Record world : Type := {
  files : gmap string string;
  trace : list event
}.

Definition M (A : Type) : Type := world -> result A * world.

#[export] Instance M_ret : MRet M := fun _ a w => (Ok a, w).
#[export] Instance M_bind : MBind M := fun _ _ k m w =>
  match m w with
  | (Ok a, w') => k a w'
  | (Raise e, w') => (Raise e, w')
  end.

Definition raise {A : Type} (e : exn) : M A := fun w => (Raise e, w).

Definition lift {A : Type} (r : result A) : M A := fun w => (r, w).

Definition emit (e : event) : M unit :=
  fun w => (Ok tt, {| files := files w; trace := trace w ++ [e] |}).

Definition read_file (path : string) : M (option string) :=
  fun w => (Ok (files w !! path), w).

Definition write_file (path data : string) : M unit :=
  fun w => (Ok tt, {| files := <[path := data]> (files w); trace := trace w |}).

Definition from_option {A : Type} (c : collaborator) (o : option A) : M A :=
  match o with
  | Some a => mret a
  | None => raise (CollaboratorError c)
  end.

(** A DMS triple as a tag value: a tuple of three (num, den) pairs. *)
Definition dms_tag (t : dms) : tag_value :=
  let '(d, m, s) := t in TagRationals [d; m; s].

(** gps.py lines 49-60: the GPS IFD for a coordinate pair. *)
Definition gps_ifd_of (lat lon : float) : result (gmap Z tag_value) :=
  lat_dms ← to_deg (fabs lat);
  lon_dms ← to_deg (fabs lon);
  let lat_ref := if fle (Z2F 0) lat then "N" else "S" in
  let lon_ref := if fle (Z2F 0) lon then "E" else "W" in
  Ok (<[GPSIFD.GPSLatitudeRef := TagBytes lat_ref]>
      (<[GPSIFD.GPSLatitude := dms_tag lat_dms]>
      (<[GPSIFD.GPSLongitudeRef := TagBytes lon_ref]>
      (<[GPSIFD.GPSLongitude := dms_tag lon_dms]> ∅)))).

Section Merger.

Variable C : collaborators.

Definition os_path_isfile (path : string) : M bool :=
  data ← read_file path;
  mret (match data with Some _ => true | None => false end).

Definition Image_open (path : string) : M (string * option string) :=
  _ ← emit (EvOpen path);
  data ← read_file path;
  from_option ImageOpen (data ≫= image_open C).

Definition load (blob : string) : M (gmap string group) :=
  _ ← emit (EvLoad blob);
  from_option PiexifLoad (piexif_load C blob).

Definition dump (exif_dict : gmap string group) : M string :=
  _ ← emit (EvDump exif_dict);
  from_option PiexifDump (piexif_dump C exif_dict).

Definition insert_exif (exif_bytes path : string) : M unit :=
  _ ← emit (EvInsert exif_bytes path);
  data ← read_file path;
  match data with
  | None => raise (CollaboratorError PiexifInsert)
  | Some data =>
      let '(data', ok) := piexif_insert C exif_bytes data in
      _ ← write_file path data';
      if ok then mret tt else raise (CollaboratorError PiexifInsert)
  end.

(** gps.py lines 23-69. *)
Definition add_gps_to_image (image_path : string) (lat lon : float)
    (overwrite : bool) : M unit :=
  is_file ← os_path_isfile image_path;
  if negb is_file then raise FileNotFoundError else
  '(img_format, existing_exif) ← Image_open image_path;
  if negb (String.eqb img_format "JPEG" || String.eqb img_format "TIFF")
  then raise (ValueError (UnsupportedFormat img_format)) else
  exif_dict ← match existing_exif with
              | Some blob =>
                  if truthy_bytes blob then load blob else mret empty_exif
              | None => mret empty_exif
              end;
  if truthy_get (exif_dict !! "GPS") && truthy_get (exif_dict !! "GPS")
     && negb overwrite
  then raise RuntimeError else
  gps_ifd ← lift (gps_ifd_of lat lon);
  let exif_dict := <["GPS" := Ifd gps_ifd]> exif_dict in
  exif_bytes ← dump exif_dict;
  _ ← insert_exif exif_bytes image_path;
  emit (EvPrint image_path).

End Merger.

(** Lines 40-43 as a relation: the tag tree the run works on and the
    collaborator calls made to obtain it. *)
Inductive loads (C : collaborators) :
    option string -> gmap string group -> list event -> Prop :=
  | loads_blob (blob : string) (d : gmap string group) :
      truthy_bytes blob = true -> piexif_load C blob = Some d ->
      loads C (Some blob) d [EvLoad blob]
  | loads_empty_blob (blob : string) :
      truthy_bytes blob = false -> loads C (Some blob) empty_exif []
  | loads_absent : loads C None empty_exif [].

(** The GPS groups handed to [piexif.dump], in call order. *)
Definition written_gps (t : list event) : list (option group) :=
  omap (fun e => match e with
                 | EvDump d => Some (d !! "GPS")
                 | _ => None
                 end) t.

(** ** Non-negative binary64 values as scaled integers

    Every finite binary64 value is an integer multiple of [2 ^ (-1074)].
    [scaled x] is that integer; on this scale the representable values
    are the integers with at most 53 significant bits, and rounding keeps
    the 53 leading bits. *)

Definition U : Z := 2 ^ 1074.

Definition scaled (x : float) : Z :=
  match x with
  | S754_finite false m e => Zpos m * 2 ^ (e + 1074)
  | _ => 0
  end.

(** Exponent of the last kept bit of [X]. *)
Definition ulp_exp (X : Z) : Z := Z.max (Z.log2 X + 1 - 53) 0.

Definition rnd (X : Z) : Z :=
  rne_div X (2 ^ ulp_exp X) * 2 ^ ulp_exp X.

Definition representable (X : Z) : Prop := X mod 2 ^ ulp_exp X = 0.

Definition of_scaled (Y : Z) : float :=
  match Y with
  | Zpos _ => S754_finite false (Z.to_pos (Y / 2 ^ ulp_exp Y)) (ulp_exp Y - 1074)
  | _ => S754_zero false
  end.

(** A non-negative, finite, well-formed float other than [-0.0]. *)
Definition good (x : float) : Prop :=
  match x with
  | S754_zero false => True
  | S754_finite false m e => bounded prec emax m e = true
  | _ => False
  end.

(** [same_value mx ex X]: the exact value [mx * 2 ^ ex] is [X] on the
    scaled grid. *)
Definition same_value (mx : positive) (ex X : Z) : Prop :=
  (0 <= ex + 1074 /\ X = Zpos mx * 2 ^ (ex + 1074)) \/
  (ex + 1074 < 0 /\ Zpos mx = X * 2 ^ (- (ex + 1074))).

(** ** [to_deg] on the scaled grid *)

Definition to_deg_scaled (X : Z) : Z * Z * Z :=
  let deg := X / U in
  let min_float := rnd (60 * (X mod U)) in
  let minutes := min_float / U in
  let sec_scaled := rnd (10000 * rnd (60 * (min_float mod U))) in
  (deg, minutes, rne_div sec_scaled U).

(** Unfolds one layer of the world monad and of its primitives. *)
Ltac msimpl :=
  unfold os_path_isfile, Image_open, load, dump, insert_exif, emit, raise,
    lift, from_option, read_file, write_file, mbind, mret, M_bind, M_ret;
  cbn [files trace option_bind negb].

(** ** Negation and the sign of zero *)

(** Unary minus on floats. *)
Definition fneg : float -> float := SFopp.

Definition is_zero (x : float) : bool :=
  match x with
  | S754_zero _ => true
  | _ => false
  end.

(** [negated x y]: [y] is [- x], up to the sign of a zero. *)
Definition negated (x y : float) : Prop :=
  y = fneg x \/ (is_zero x = true /\ is_zero y = true).

(** [negated] lifted to outcomes: the same exception, or negated values. *)
Definition negated_result (r r' : result float) : Prop :=
  match r, r' with
  | Ok a, Ok b => negated a b
  | Raise e, Raise e' => e = e'
  | _, _ => False
  end.

(** A triple with its three numerators negated. *)
Definition neg_dms (t : dms) : dms :=
  let '((d, dd), (m, md), (s, sd)) := t in ((- d, dd), (- m, md), (- s, sd)).

Definition map_result {A B : Type} (f : A -> B) (r : result A) : result B :=
  match r with
  | Ok a => Ok (f a)
  | Raise e => Raise e
  end.

(** Lexicographic order on (degrees, minutes, seconds) numerators. *)
Definition dms_le (t t' : dms) : Prop :=
  let '((d, _), (m, _), (s, _)) := t in
  let '((d', _), (m', _), (s', _)) := t' in
  d < d' \/ (d = d' /\ (m < m' \/ (m = m' /\ s <= s'))).

(** ** Every way a run of [add_gps_to_image] can end *)

(** The world after further collaborator calls. *)
Definition extend (w : world) (evs : list event) : world :=
  {| files := files w; trace := trace w ++ evs |}.

(** The nine ends of a run, one per raise site, failing collaborator call
    and the normal return, each with the world it leaves. *)
Inductive run_end (C : collaborators) (path : string) (lat lon : float)
    (overwrite : bool) (w : world) : result unit -> world -> Prop :=
  | end_not_found :
      files w !! path = None ->
      run_end C path lat lon overwrite w (Raise FileNotFoundError) w
  | end_open_fails (data : string) :
      files w !! path = Some data -> image_open C data = None ->
      run_end C path lat lon overwrite w
        (Raise (CollaboratorError ImageOpen)) (extend w [EvOpen path])
  | end_unsupported (data fmt : string) (ex : option string) :
      files w !! path = Some data -> image_open C data = Some (fmt, ex) ->
      fmt <> "JPEG" -> fmt <> "TIFF" ->
      run_end C path lat lon overwrite w
        (Raise (ValueError (UnsupportedFormat fmt))) (extend w [EvOpen path])
  | end_load_fails (data fmt blob : string) :
      files w !! path = Some data ->
      image_open C data = Some (fmt, Some blob) ->
      fmt = "JPEG" \/ fmt = "TIFF" ->
      truthy_bytes blob = true -> piexif_load C blob = None ->
      run_end C path lat lon overwrite w
        (Raise (CollaboratorError PiexifLoad))
        (extend w [EvOpen path; EvLoad blob])
  | end_guard (data fmt : string) (ex : option string)
      (d : gmap string group) (evs : list event) :
      files w !! path = Some data -> image_open C data = Some (fmt, ex) ->
      fmt = "JPEG" \/ fmt = "TIFF" -> loads C ex d evs ->
      truthy_get (d !! "GPS") = true -> overwrite = false ->
      run_end C path lat lon overwrite w
        (Raise RuntimeError) (extend w (EvOpen path :: evs))
  | end_convert (data fmt : string) (ex : option string)
      (d : gmap string group) (evs : list event) (e : exn) :
      files w !! path = Some data -> image_open C data = Some (fmt, ex) ->
      fmt = "JPEG" \/ fmt = "TIFF" -> loads C ex d evs ->
      truthy_get (d !! "GPS") && negb overwrite = false ->
      gps_ifd_of lat lon = Raise e ->
      run_end C path lat lon overwrite w
        (Raise e) (extend w (EvOpen path :: evs))
  | end_dump_fails (data fmt : string) (ex : option string)
      (d : gmap string group) (evs : list event) (g : gmap Z tag_value) :
      files w !! path = Some data -> image_open C data = Some (fmt, ex) ->
      fmt = "JPEG" \/ fmt = "TIFF" -> loads C ex d evs ->
      truthy_get (d !! "GPS") && negb overwrite = false ->
      gps_ifd_of lat lon = Ok g ->
      piexif_dump C (<["GPS" := Ifd g]> d) = None ->
      run_end C path lat lon overwrite w
        (Raise (CollaboratorError PiexifDump))
        (extend w (EvOpen path :: evs ++ [EvDump (<["GPS" := Ifd g]> d)]))
  | end_insert_fails (data fmt : string) (ex : option string)
      (d : gmap string group) (evs : list event) (g : gmap Z tag_value)
      (exif_bytes data' : string) :
      files w !! path = Some data -> image_open C data = Some (fmt, ex) ->
      fmt = "JPEG" \/ fmt = "TIFF" -> loads C ex d evs ->
      truthy_get (d !! "GPS") && negb overwrite = false ->
      gps_ifd_of lat lon = Ok g ->
      piexif_dump C (<["GPS" := Ifd g]> d) = Some exif_bytes ->
      piexif_insert C exif_bytes data = (data', false) ->
      run_end C path lat lon overwrite w
        (Raise (CollaboratorError PiexifInsert))
        {| files := <[path := data']> (files w);
           trace := trace w ++ EvOpen path :: evs ++
                    [EvDump (<["GPS" := Ifd g]> d); EvInsert exif_bytes path] |}
  | end_ok (data fmt : string) (ex : option string)
      (d : gmap string group) (evs : list event) (g : gmap Z tag_value)
      (exif_bytes data' : string) :
      files w !! path = Some data -> image_open C data = Some (fmt, ex) ->
      fmt = "JPEG" \/ fmt = "TIFF" -> loads C ex d evs ->
      truthy_get (d !! "GPS") && negb overwrite = false ->
      gps_ifd_of lat lon = Ok g ->
      piexif_dump C (<["GPS" := Ifd g]> d) = Some exif_bytes ->
      piexif_insert C exif_bytes data = (data', true) ->
      run_end C path lat lon overwrite w (Ok tt)
        {| files := <[path := data']> (files w);
           trace := trace w ++ EvOpen path :: evs ++
                    [EvDump (<["GPS" := Ifd g]> d); EvInsert exif_bytes path;
                     EvPrint path] |}.

(** The place of a call in the pipeline. *)
Definition rank (e : event) : nat :=
  match e with
  | EvOpen _ => 0
  | EvLoad _ => 1
  | EvDump _ => 2
  | EvInsert _ _ => 3
  | EvPrint _ => 4
  end.


(** ** The command-line entry point (gps.py lines 81-110)

    [parse_args] is argparse; the entry point is modelled from the parsed
    [Namespace] on.  [sys.exit(n)] ends the program with status [n], and
    falling off the end of the block is status [0]. *)

Module Namespace.
Record t : Type := {
  image : string;
  lat : float;
  lon : float;
  force : bool
}.
End Namespace.

(** The [except] clauses of lines 99-110, in source order. *)
Inductive clause : Type :=
  | ExceptRuntimeError
  | ExceptValueError
  | ExceptFileNotFoundError
  | ExceptException.

(** The first clause that matches a raised exception.  [OverflowError] is
    an [ArithmeticError], so only the last clause catches it.  The class
    of an exception raised inside PIL or piexif is a parameter; such
    exceptions are taken to derive from [Exception]. *)
Definition matching_clause (class_of : collaborator -> clause) (e : exn) :
    clause :=
  match e with
  | RuntimeError => ExceptRuntimeError
  | ValueError _ => ExceptValueError
  | FileNotFoundError => ExceptFileNotFoundError
  | OverflowError => ExceptException
  | CollaboratorError c => class_of c
  end.

Definition exit_status (c : clause) : Z :=
  match c with
  | ExceptRuntimeError => 5
  | ExceptValueError => 6
  | ExceptFileNotFoundError => 2
  | ExceptException => 10
  end.

(** The line the entry point itself prints before exiting. *)
Inductive line : Type :=
  | FileNotFoundLine (image : string)
  | LatitudeLine
  | LongitudeLine
  | ErrorLine (e : exn)
  | UnexpectedLine (e : exn).

Definition handler_line (c : clause) (e : exn) : line :=
  match c with
  | ExceptException => UnexpectedLine e
  | _ => ErrorLine e
  end.

(** [lo <= x <= hi] for float literals [lo] and [hi] with integer values. *)
Definition between (lo hi : Z) (x : float) : bool :=
  fle (Z2F lo) x && fle x (Z2F hi).

(** Lines 84-110: the exit status and the line printed on the way out. *)
Definition main (C : collaborators) (class_of : collaborator -> clause)
    (args : Namespace.t) : M (Z * option line) :=
  is_file ← os_path_isfile (Namespace.image args);
  if negb is_file
  then mret (2, Some (FileNotFoundLine (Namespace.image args)))
  else if negb (between (-90) 90 (Namespace.lat args))
  then mret (3, Some LatitudeLine)
  else if negb (between (-180) 180 (Namespace.lon args))
  then mret (4, Some LongitudeLine)
  else fun w =>
    match add_gps_to_image C (Namespace.image args) (Namespace.lat args)
            (Namespace.lon args) (Namespace.force args) w with
    | (Ok _, w') => (Ok (0, None), w')
    | (Raise e, w') =>
        let c := matching_clause class_of e in
        (Ok (exit_status c, Some (handler_line c e)), w')
    end.

(** ** Collaborators and worlds for the worked examples *)

(** [0.99999999], [9.574639] and [77.679861]: a decimal literal is the
    float nearest to the quotient of two exactly representable integers. *)
Definition v_099999999 : float := fdiv (Z2F 99999999) (Z2F 100000000).

Definition demo_tree (with_gps : bool) : gmap string group :=
  <["0th" := Ifd {[271 := TagBytes "Canon"]}]>
    (if with_gps
     then <["GPS" := Ifd {[GPSIFD.GPSLatitudeRef := TagBytes "S"]}]> empty_exif
     else empty_exif).

(** A toy codec: the EXIF blob of a file is its contents, the blob ["gps"]
    decodes to a tree with a GPS entry, and [dump] only records whether
    the tree has GPS tags. *)
Definition demo : collaborators := {|
  image_open := fun data =>
    if String.eqb data "png" then Some ("PNG", None)
    else Some ("JPEG", Some data);
  piexif_load := fun blob => Some (demo_tree (String.eqb blob "gps"));
  piexif_dump := fun d =>
    Some (if truthy_get (d !! "GPS") then "gps" else "nogps");
  piexif_insert := fun exif_bytes _ => (exif_bytes, true)
|}.

Definition world_of (path data : string) : world :=
  {| files := {[path := data]}; trace := [] |}.

Definition lat_demo : float := fdiv (Z2F 9574639) (Z2F 1000000).
Definition lon_demo : float := fdiv (Z2F 77679861) (Z2F 1000000).

Definition after_first : world :=
  (add_gps_to_image demo "a.jpg" lat_demo lon_demo true
     (world_of "a.jpg" "plain")).2.

Definition after_second : world :=
  (add_gps_to_image demo "a.jpg" lat_demo lon_demo true after_first).2.

Definition gps_demo : gmap Z tag_value :=
  <[GPSIFD.GPSLatitudeRef := TagBytes "N"]>
  (<[GPSIFD.GPSLatitude := TagRationals [(9, 1); (34, 1); (287004, 10000)]]>
  (<[GPSIFD.GPSLongitudeRef := TagBytes "E"]>
  (<[GPSIFD.GPSLongitude := TagRationals [(77, 1); (40, 1); (474996, 10000)]]> ∅))).

(** Arguments for the worked examples of the entry point; every exception
    of a collaborator is caught by the last clause. *)
Definition args_demo (lat lon : float) (force : bool) : Namespace.t :=
  {| Namespace.image := "a.jpg"; Namespace.lat := lat; Namespace.lon := lon;
     Namespace.force := force |}.

Definition class_demo : collaborator -> clause := fun _ => ExceptException.

(** ** Integer toolkit for rounding *)

Section RneDiv.

Variables a b : Z.
Hypothesis Hb : 0 < b.

Lemma rne_div_bounds :
  b * (2 * rne_div a b - 1) <= 2 * a <= b * (2 * rne_div a b + 1).
Proof using Hb.
  unfold rne_div.
  pose proof (Z.div_mod a b ltac:(lia)) as Hdm.
  pose proof (Z.mod_pos_bound a b Hb) as Hr.
  destruct (Z.compare_spec (2 * (a mod b)) b) as [He | Hl | Hg].
  - destruct (Z.even (a / b)); nia.
  - nia.
  - nia.
Qed.

Lemma rne_div_le_upper (N : Z) : a <= N * b -> rne_div a b <= N.
Proof using Hb. pose proof rne_div_bounds. nia. Qed.

Lemma rne_div_ge_lower (N : Z) : N * b <= a -> N <= rne_div a b.
Proof using Hb. pose proof rne_div_bounds. nia. Qed.

Lemma rne_div_lt_upper (N : Z) :
  2 * a < (2 * N - 1) * b -> rne_div a b <= N - 1.
Proof using Hb. pose proof rne_div_bounds. nia. Qed.

Lemma rne_div_exact (q : Z) : a = q * b -> rne_div a b = q.
Proof using Hb.
  intros ->. unfold rne_div.
  rewrite Z.mod_mul, Z.div_mul by lia.
  now replace (2 * 0 ?= b) with Lt by (symmetry; apply Z.compare_lt_iff; lia).
Qed.

Lemma rne_div_scale (c : Z) : 0 < c -> rne_div (a * c) (b * c) = rne_div a b.
Proof using Hb.
  intros Hc. unfold rne_div.
  rewrite Z.div_mul_cancel_r, Zmult_mod_distr_r by lia.
  destruct (Z.compare_spec (2 * (a mod b)) b),
           (Z.compare_spec (2 * (a mod b * c)) (b * c));
    try reflexivity; nia.
Qed.

End RneDiv.

(** ** The shift-and-round core of [SpecFloat] *)

Lemma digits2_pos_size (p : positive) : digits2_pos p = Pos.size p.
Proof. induction p; simpl; congruence. Qed.

Lemma Zdigits2_log2 (p : positive) : Zdigits2 (Zpos p) = Z.log2 (Zpos p) + 1.
Proof.
  unfold Zdigits2. rewrite digits2_pos_size.
  destruct p; simpl; lia.
Qed.

Lemma iter_pos_nat {A : Type} (f : A -> A) (p : positive) (x : A) :
  SpecFloat.iter_pos f p x = Nat.iter (Pos.to_nat p) f x.
Proof.
  revert x. induction p as [p IH | p IH |]; intros x.
  - cbn [SpecFloat.iter_pos]. rewrite !IH.
    replace (Pos.to_nat p~1) with (Pos.to_nat p + (Pos.to_nat p + 1))%nat by lia.
    rewrite !Nat.iter_add. reflexivity.
  - cbn [SpecFloat.iter_pos]. rewrite !IH.
    replace (Pos.to_nat p~0) with (Pos.to_nat p + Pos.to_nat p)%nat by lia.
    rewrite Nat.iter_add. reflexivity.
  - reflexivity.
Qed.

Lemma shr_1_div2 (m : Z) (r s : bool) :
  0 <= m ->
  shr_1 (Build_shr_record m r s) = Build_shr_record (m / 2) (Z.odd m) (r || s).
Proof.
  intros Hm. rewrite <- Z.div2_div.
  destruct m as [| [p | p |] | p]; try reflexivity; lia.
Qed.

(** After [n + 1] one-bit shifts the record holds the quotient, the round
    bit and the sticky bit of the division by [2 ^ (n + 1)]. *)
Lemma shr_iter (M : Z) (n : nat) :
  0 <= M ->
  Nat.iter (S n) shr_1 (Build_shr_record M false false) =
  Build_shr_record (M / 2 ^ Z.of_nat (S n))
                   (Z.odd (M / 2 ^ Z.of_nat n))
                   (negb (M mod 2 ^ Z.of_nat n =? 0)).
Proof.
  intros HM. induction n as [| n IH].
  - change (Nat.iter 1 shr_1 ?x) with (shr_1 x).
    rewrite shr_1_div2 by assumption.
    change (2 ^ Z.of_nat 0) with 1. change (2 ^ Z.of_nat 1) with 2.
    rewrite Z.div_1_r, Z.mod_1_r. reflexivity.
  - change (Nat.iter (S (S n)) shr_1 ?x) with (shr_1 (Nat.iter (S n) shr_1 x)).
    rewrite IH.
    assert (Hp : 0 < 2 ^ Z.of_nat n) by (apply Z.pow_pos_nonneg; lia).
    rewrite shr_1_div2 by (apply Z.div_pos; [lia | apply Z.pow_pos_nonneg; lia]).
    rewrite Z.div_div by (try apply Z.pow_pos_nonneg; lia).
    replace (2 ^ Z.of_nat (S n) * 2) with (2 ^ Z.of_nat (S (S n)))
      by (rewrite !Nat2Z.inj_succ, !Z.pow_succ_r; lia).
    f_equal.
    replace (2 ^ Z.of_nat (S n)) with (2 ^ Z.of_nat n * 2)
      by (rewrite !Nat2Z.inj_succ, !Z.pow_succ_r; lia).
    rewrite Z.rem_mul_r by lia.
    pose proof (Z.mod_pos_bound M (2 ^ Z.of_nat n) Hp) as Hr.
    rewrite (Zmod_odd (M / 2 ^ Z.of_nat n)).
    destruct (Z.odd (M / 2 ^ Z.of_nat n)); simpl.
    + symmetry. apply negb_true_iff, Z.eqb_neq. lia.
    + f_equal. f_equal. lia.
Qed.

(** Rounding the shifted record to nearest-even is [rne_div]. *)
Lemma shr_round_nearest_even (M : Z) (p : positive) :
  0 <= M ->
  let mrs := SpecFloat.iter_pos shr_1 p (Build_shr_record M false false) in
  round_nearest_even (shr_m mrs) (loc_of_shr_record mrs) =
  rne_div M (2 ^ Zpos p).
Proof.
  intros HM mrs. subst mrs.
  rewrite iter_pos_nat.
  destruct (Pos2Nat.is_succ p) as [n Hn]. rewrite Hn.
  rewrite shr_iter by assumption.
  replace (Zpos p) with (Z.of_nat (S n)) by lia. simpl shr_m.
  set (h := 2 ^ Z.of_nat n).
  assert (Hh : 0 < h) by (apply Z.pow_pos_nonneg; lia).
  assert (H2 : 2 ^ Z.of_nat (S n) = h * 2)
    by (unfold h; rewrite Nat2Z.inj_succ, Z.pow_succ_r; lia).
  rewrite H2. unfold rne_div.
  rewrite Z.rem_mul_r by lia.
  rewrite <- Z.div_div by lia.
  pose proof (Z.mod_pos_bound M h Hh) as Hr.
  rewrite (Zmod_odd (M / h)).
  destruct (Z.odd (M / h)); simpl;
    destruct (Z.eqb_spec (M mod h) 0) as [E | E]; simpl.
  - replace (2 * (M mod h + h * 1) ?= h * 2) with Eq
      by (symmetry; apply Z.compare_eq_iff; lia). reflexivity.
  - replace (2 * (M mod h + h * 1) ?= h * 2) with Gt
      by (symmetry; apply Z.compare_gt_iff; lia). reflexivity.
  - replace (2 * (M mod h + h * 0) ?= h * 2) with Lt
      by (symmetry; apply Z.compare_lt_iff; lia). reflexivity.
  - replace (2 * (M mod h + h * 0) ?= h * 2) with Lt
      by (symmetry; apply Z.compare_lt_iff; lia). reflexivity.
Qed.

Lemma pow2_pos (k : Z) : 0 <= k -> 0 < 2 ^ k.
Proof. intros. apply Z.pow_pos_nonneg; lia. Qed.

Lemma pow2_split (a b : Z) : 0 <= a -> 0 <= b -> 2 ^ (a + b) = 2 ^ a * 2 ^ b.
Proof. intros. apply Z.pow_add_r; assumption. Qed.

Lemma ulp_exp_nonneg (X : Z) : 0 <= ulp_exp X.
Proof. unfold ulp_exp. lia. Qed.

Lemma log2_bounds (X : Z) : 0 < X -> 2 ^ Z.log2 X <= X < 2 ^ (Z.log2 X + 1).
Proof. intros H. pose proof (Z.log2_spec X H). unfold Z.succ in *. lia. Qed.

Lemma log2_pow2_mul (q k : Z) :
  0 < q -> 0 <= k -> Z.log2 (q * 2 ^ k) = Z.log2 q + k.
Proof. intros. rewrite Z.log2_mul_pow2 by lia. lia. Qed.

(** The kept mantissa of a rounded value has 53 bits unless the value is
    on the finest grid. *)
Lemma rne_div_ulp_range (X : Z) :
  0 < X -> 0 < ulp_exp X ->
  2 ^ 52 <= rne_div X (2 ^ ulp_exp X) <= 2 ^ 53.
Proof.
  intros HX Hk.
  pose proof (log2_bounds X HX) as [Hlo Hhi].
  pose proof (pow2_pos _ (ulp_exp_nonneg X)) as Hp.
  assert (HL : Z.log2 X = 52 + ulp_exp X) by (unfold ulp_exp in *; lia).
  rewrite HL in Hlo.
  replace (Z.log2 X + 1) with (53 + ulp_exp X) in Hhi by lia.
  rewrite pow2_split in Hlo, Hhi by lia.
  split.
  - apply rne_div_ge_lower; lia.
  - apply rne_div_le_upper; lia.
Qed.

Lemma rne_div_ulp_small (X : Z) :
  0 < X -> ulp_exp X = 0 -> rne_div X (2 ^ ulp_exp X) = X /\ X < 2 ^ 53.
Proof.
  intros HX Hk. rewrite Hk. split.
  - apply rne_div_exact; lia.
  - pose proof (log2_bounds X HX) as [_ Hhi].
    eapply Z.lt_le_trans; [exact Hhi|].
    apply Z.pow_le_mono_r; unfold ulp_exp in Hk; lia.
Qed.

Lemma rnd_0 : rnd 0 = 0.
Proof. reflexivity. Qed.

Lemma rnd_nonneg (X : Z) : 0 <= X -> 0 <= rnd X.
Proof.
  intros HX. unfold rnd.
  pose proof (pow2_pos _ (ulp_exp_nonneg X)) as Hp.
  assert (0 <= rne_div X (2 ^ ulp_exp X)) by (apply rne_div_ge_lower; lia).
  nia.
Qed.

Lemma shr_nonpos (mrs : shr_record) (e n : Z) : n <= 0 -> shr mrs e n = (mrs, e).
Proof. destruct n; [reflexivity | lia | reflexivity]. Qed.

Lemma fexp_binary64 (d : Z) : fexp prec emax d = Z.max (d - 53) (-1074).
Proof. reflexivity. Qed.

Lemma of_scaled_mul_pow2 (q k : Z) :
  0 < q -> 0 <= k ->
  (0 < k -> 2 ^ 52 <= q < 2 ^ 53) -> (k = 0 -> q < 2 ^ 53) ->
  of_scaled (q * 2 ^ k) = S754_finite false (Z.to_pos q) (k - 1074).
Proof.
  intros Hq Hk Hn Hs.
  pose proof (pow2_pos k Hk) as Hp.
  assert (Hk' : ulp_exp (q * 2 ^ k) = k).
  { unfold ulp_exp. rewrite log2_pow2_mul by assumption.
    destruct (Z.eq_dec k 0) as [-> | Hne].
    - specialize (Hs eq_refl).
      assert (Z.log2 q < 53) by (apply Z.log2_lt_pow2; lia). lia.
    - destruct Hn as [Hlo Hhi]; [lia|].
      assert (Z.log2 q < 53) by (apply Z.log2_lt_pow2; lia).
      assert (52 <= Z.log2 q) by (apply Z.log2_le_pow2; lia). lia. }
  unfold of_scaled. rewrite Hk'.
  destruct (q * 2 ^ k) eqn:E; try lia.
  rewrite <- E, Z.div_mul by lia. reflexivity.
Qed.

(** The second normalisation step of [binary_round_aux]: it only acts
    when rounding carried into a 54th bit. *)
Lemma round_finish (q k : Z) :
  0 <= q -> 0 <= k ->
  (0 < k -> 2 ^ 52 <= q <= 2 ^ 53) -> (k = 0 -> q < 2 ^ 53) ->
  q * 2 ^ k < 2 ^ 2098 ->
  (let '(mrs'', e'') := shr_fexp prec emax q (k - 1074) loc_Exact in
   match shr_m mrs'' with
   | Z0 => S754_zero false
   | Zpos m =>
       if e'' <=? emax - prec then S754_finite false m e''
       else S754_infinity false
   | Zneg _ => S754_nan
   end) = of_scaled (q * 2 ^ k).
Proof.
  intros Hq Hk Hn Hs Hov.
  pose proof (pow2_pos k Hk) as Hp.
  assert (Hq53 : q <= 2 ^ 53) by (destruct (Z.eq_dec k 0); [specialize (Hs ltac:(assumption))|]; lia).
  unfold shr_fexp. rewrite fexp_binary64.
  destruct (Z.eq_dec q 0) as [-> | Hq0];
    [| destruct (Z.eq_dec q (2 ^ 53)) as [-> | Hq1]].
  - (* the value rounded to zero *)
    change (Zdigits2 0) with 0. simpl shr_record_of_loc.
    destruct (Z.max (0 + (k - 1074) - 53) (-1074) - (k - 1074)) as [| p | p] eqn:En;
      unfold shr; simpl; try reflexivity.
    rewrite iter_pos_nat. destruct (Pos2Nat.is_succ p) as [n ->].
    rewrite shr_iter by lia. simpl shr_m. rewrite Z.div_0_l; [reflexivity|].
    apply Z.pow_nonzero; lia.
  - (* carry: the mantissa [2 ^ 53] is renormalised to [2 ^ 52] *)
    change (Zdigits2 (2 ^ 53)) with 54.
    replace (Z.max (54 + (k - 1074) - 53) (-1074) - (k - 1074)) with 1 by lia.
    change (shr (shr_record_of_loc (2 ^ 53) loc_Exact) (k - 1074) 1)
      with (Build_shr_record (2 ^ 52) false false, k - 1074 + 1).
    cbv beta iota. simpl shr_m.
    assert (Hk2 : k + 1 <= 2045).
    { destruct (Z_le_gt_dec (k + 1) 2045) as [|Hgt]; [assumption|exfalso].
      assert (2 ^ 2098 <= 2 ^ 53 * 2 ^ k); [|lia].
      rewrite <- pow2_split by lia. apply Z.pow_le_mono_r; lia. }
    change (2 ^ 52) with (Zpos (Z.to_pos (2 ^ 52))) at 1.
    cbv iota.
    replace (k - 1074 + 1 <=? emax - prec) with true
      by (symmetry; apply Z.leb_le; unfold emax, prec; lia).
    replace (2 ^ 53 * 2 ^ k) with (2 ^ 52 * 2 ^ (k + 1))
      by (rewrite (pow2_split k 1) by lia; change (2 ^ 53) with (2 ^ 52 * 2); change (2 ^ 1) with 2; lia).
    rewrite of_scaled_mul_pow2 by lia.
    f_equal. lia.
  - (* no carry *)
    assert (Hq' : 0 < q < 2 ^ 53) by lia.
    destruct q as [| p | p]; try lia.
    rewrite Zdigits2_log2.
    assert (Z.log2 (Zpos p) < 53) by (apply Z.log2_lt_pow2; lia).
    rewrite shr_nonpos by lia.
    simpl shr_record_of_loc. simpl shr_m.
    assert (Hk2 : k <= 2045).
    { destruct (Z.eq_dec k 0) as [-> | Hne]; [lia|].
      destruct (Z_le_gt_dec k 2045) as [|Hgt]; [assumption|exfalso].
      assert (2 ^ 2098 <= 2 ^ 52 * 2 ^ k); [|nia].
      rewrite <- pow2_split by lia. apply Z.pow_le_mono_r; lia. }
    replace (k - 1074 <=? emax - prec) with true
      by (symmetry; apply Z.leb_le; unfold emax, prec; lia).
    rewrite of_scaled_mul_pow2 by lia.
    reflexivity.
Qed.

Lemma same_value_log2 (mx : positive) (ex X : Z) :
  same_value mx ex X ->
  0 < X /\ Z.log2 X = Z.log2 (Zpos mx) + ex + 1074.
Proof.
  intros [[Hj ->] | [Hj HX]].
  - pose proof (pow2_pos _ Hj). split; [lia|].
    rewrite log2_pow2_mul by lia. lia.
  - pose proof (pow2_pos (- (ex + 1074)) ltac:(lia)) as Hp.
    assert (0 < X) by nia. split; [assumption|].
    rewrite HX, log2_pow2_mul by lia. lia.
Qed.

Lemma same_value_fexp (mx : positive) (ex X : Z) :
  same_value mx ex X ->
  fexp prec emax (Zdigits2 (Zpos mx) + ex) = ulp_exp X - 1074.
Proof.
  intros H. apply same_value_log2 in H as [_ HL].
  rewrite fexp_binary64, Zdigits2_log2. unfold ulp_exp. lia.
Qed.

Lemma first_shift (mx : positive) (ex X : Z) :
  same_value mx ex X ->
  ex <= ulp_exp X - 1074 ->
  exists mrs,
    shr_fexp prec emax (Zpos mx) ex loc_Exact = (mrs, ulp_exp X - 1074) /\
    round_nearest_even (shr_m mrs) (loc_of_shr_record mrs) =
    rne_div X (2 ^ ulp_exp X).
Proof.
  intros Hsv Hn. unfold shr_fexp.
  rewrite (same_value_fexp _ _ _ Hsv).
  pose proof (ulp_exp_nonneg X) as Hk.
  remember (ulp_exp X) as k eqn:Ek. clear Ek.
  destruct (k - 1074 - ex) as [| p | p] eqn:En; try lia.
  - exists (Build_shr_record (Zpos mx) false false). split.
    + simpl. f_equal. lia.
    + simpl. symmetry. apply rne_div_exact; [apply pow2_pos; lia|].
      destruct Hsv as [[Hj HX] | [Hj HX]]; [|lia].
      rewrite HX. f_equal. f_equal. lia.
  - eexists. split.
    + unfold shr. simpl shr_record_of_loc. f_equal. lia.
    + rewrite shr_round_nearest_even by lia.
      pose proof (pow2_pos (Zpos p) ltac:(lia)) as Hp.
      destruct Hsv as [[Hj HX] | [Hj HX]].
      * rewrite HX.
        replace k with (Zpos p + (ex + 1074)) by lia.
        rewrite (pow2_split (Zpos p) (ex + 1074)) by lia.
        rewrite rne_div_scale; [reflexivity | lia | apply pow2_pos; lia].
      * rewrite HX.
        replace (Zpos p) with (k + - (ex + 1074)) by lia.
        rewrite (pow2_split k (- (ex + 1074))) by lia.
        rewrite rne_div_scale; [reflexivity | |]; apply pow2_pos; lia.
Qed.

(** [binary_round_aux] on an exact, aligned, positive input is rounding
    on the scaled grid. *)
Lemma binary_round_aux_scaled (mx : positive) (ex X : Z) :
  same_value mx ex X ->
  ex <= fexp prec emax (Zdigits2 (Zpos mx) + ex) ->
  rnd X < 2 ^ 2098 ->
  binary_round_aux prec emax false (Zpos mx) ex loc_Exact = of_scaled (rnd X).
Proof.
  intros Hsv Hal Hov.
  rewrite (same_value_fexp _ _ _ Hsv) in Hal.
  destruct (first_shift _ _ _ Hsv Hal) as (mrs & Hshr & Hrne).
  destruct (same_value_log2 _ _ _ Hsv) as [HX _].
  unfold binary_round_aux. rewrite Hshr, Hrne.
  pose proof (ulp_exp_nonneg X) as Hk.
  apply round_finish; try assumption.
  - apply rne_div_ge_lower; [apply pow2_pos|]; lia.
  - intros Hk0. apply rne_div_ulp_range; assumption.
  - intros Hk0. destruct (rne_div_ulp_small X HX Hk0) as [-> ?]. assumption.
Qed.

(** ** Well-formed floats and their scaled values *)

Lemma good_inv (m : positive) (e : Z) :
  bounded prec emax m e = true ->
  -1074 <= e <= 971 /\ Zpos m < 2 ^ 53 /\ (-1074 < e -> 2 ^ 52 <= Zpos m).
Proof.
  unfold bounded, canonical_mantissa. intros H.
  apply andb_true_iff in H as [Hc Hb].
  apply Z.eqb_eq in Hc. apply Z.leb_le in Hb.
  rewrite fexp_binary64 in Hc.
  change (Zpos (digits2_pos m)) with (Zdigits2 (Zpos m)) in Hc.
  rewrite Zdigits2_log2 in Hc.
  pose proof (log2_bounds (Zpos m) ltac:(lia)) as [Hlo Hhi].
  unfold emax, prec in Hb.
  split; [lia|]. split.
  - eapply Z.lt_le_trans; [exact Hhi|]. apply Z.pow_le_mono_r; lia.
  - intros He. eapply Z.le_trans; [|exact Hlo]. apply Z.pow_le_mono_r; lia.
Qed.

Lemma good_of_scaled (x : float) : good x -> of_scaled (scaled x) = x.
Proof.
  destruct x as [[|] | | | [|] m e]; simpl; try tauto.
  intros H. destruct (good_inv m e H) as (He & Hhi & Hlo).
  rewrite of_scaled_mul_pow2 by lia.
  f_equal. lia.
Qed.

Lemma scaled_nonneg (x : float) : 0 <= scaled x.
Proof.
  destruct x as [| | | [|] m e]; simpl; lia.
Qed.

Lemma representable_mul_pow2 (q k : Z) :
  0 <= q < 2 ^ 53 -> 0 <= k -> representable (q * 2 ^ k).
Proof.
  intros Hq Hk. unfold representable.
  destruct (Z.eq_dec q 0) as [-> | Hq0]; [reflexivity|].
  assert (Hl : Z.log2 q < 53) by (apply Z.log2_lt_pow2; lia).
  assert (Hu : ulp_exp (q * 2 ^ k) <= k).
  { unfold ulp_exp. rewrite log2_pow2_mul by lia. lia. }
  pose proof (ulp_exp_nonneg (q * 2 ^ k)) as Hu0.
  remember (ulp_exp (q * 2 ^ k)) as u eqn:Eu. clear Eu.
  replace k with ((k - u) + u) by lia.
  rewrite pow2_split, Z.mul_assoc by lia.
  apply Z.mod_mul. apply Z.pow_nonzero; lia.
Qed.

Lemma good_representable (x : float) : good x -> representable (scaled x).
Proof.
  destruct x as [[|] | | | [|] m e]; simpl; try tauto; try reflexivity.
  intros H. destruct (good_inv m e H) as (He & Hhi & Hlo).
  apply representable_mul_pow2; lia.
Qed.

Lemma good_bound (x : float) : good x -> scaled x <= (2 ^ 53 - 1) * 2 ^ 2045.
Proof.
  destruct x as [[|] | | | [|] m e]; simpl; try tauto; try (intros _; lia).
  intros H. destruct (good_inv m e H) as (He & Hhi & Hlo).
  assert (2 ^ (e + 1074) <= 2 ^ 2045) by (apply Z.pow_le_mono_r; lia).
  pose proof (pow2_pos (e + 1074)). nia.
Qed.

Lemma rnd_representable_id (X : Z) : representable X -> rnd X = X.
Proof.
  unfold representable, rnd. intros H.
  pose proof (pow2_pos _ (ulp_exp_nonneg X)) as Hp.
  pose proof (Z.div_mod X (2 ^ ulp_exp X) ltac:(lia)) as Hdm.
  rewrite (rne_div_exact X _ Hp (X / 2 ^ ulp_exp X)); lia.
Qed.

(** Rounding never crosses a representable value. *)
Lemma rnd_le_representable (X Y : Z) :
  0 <= X <= Y -> representable Y -> rnd X <= Y.
Proof.
  intros [HX HXY] HY. unfold rnd, representable in *.
  pose proof (ulp_exp_nonneg X) as Hk.
  assert (Hkk : ulp_exp X <= ulp_exp Y).
  { unfold ulp_exp. pose proof (Z.log2_le_mono X Y HXY). lia. }
  pose proof (pow2_pos _ Hk) as Hp.
  pose proof (pow2_pos _ (ulp_exp_nonneg Y)) as Hpy.
  assert (HYk : Y = (Y / 2 ^ ulp_exp Y * 2 ^ (ulp_exp Y - ulp_exp X)) * 2 ^ ulp_exp X).
  { rewrite <- Z.mul_assoc, <- pow2_split by lia.
    replace (ulp_exp Y - ulp_exp X + ulp_exp X) with (ulp_exp Y) by lia.
    pose proof (Z.div_mod Y (2 ^ ulp_exp Y) ltac:(lia)). lia. }
  remember (Y / 2 ^ ulp_exp Y * 2 ^ (ulp_exp Y - ulp_exp X)) as N eqn:EN. clear EN.
  assert (rne_div X (2 ^ ulp_exp X) <= N) by (apply rne_div_le_upper; lia).
  nia.
Qed.

(** ** The float operations on the scaled grid *)

Lemma iter_xO_pow2 (m d : positive) :
  Zpos (Pos.iter xO m d) = Zpos m * 2 ^ Zpos d.
Proof.
  induction d as [| d IH] using Pos.peano_ind.
  - simpl. lia.
  - rewrite Pos.iter_succ, Pos2Z.inj_xO, IH, Pos2Z.inj_succ, Z.pow_succ_r by lia.
    lia.
Qed.

Lemma shl_align_spec (mx : positive) (ex ex' : Z) :
  let '(mz, ez) := shl_align mx ex ex' in
  ez = Z.min ex ex' /\ Zpos mz = Zpos mx * 2 ^ (ex - ez).
Proof.
  unfold shl_align.
  destruct (ex' - ex) as [| d | d] eqn:E.
  - split; [lia|]. replace (ex - ex) with 0 by lia. lia.
  - split; [lia|]. replace (ex - ex) with 0 by lia. lia.
  - split; [lia|]. rewrite iter_xO_pow2. f_equal. f_equal. lia.
Qed.

Lemma binary_normalize_scaled (M E : Z) :
  0 <= M -> 0 <= E + 1074 ->
  rnd (M * 2 ^ (E + 1074)) < 2 ^ 2098 ->
  binary_normalize prec emax M E false = of_scaled (rnd (M * 2 ^ (E + 1074))).
Proof.
  intros HM HE Hov.
  destruct M as [| p | p]; [reflexivity | | lia].
  set (X := Zpos p * 2 ^ (E + 1074)) in *.
  assert (Hsv0 : same_value p E X) by (left; split; [assumption | reflexivity]).
  unfold binary_normalize, binary_round.
  change (Zpos (digits2_pos p)) with (Zdigits2 (Zpos p)).
  rewrite (same_value_fexp _ _ _ Hsv0).
  pose proof (shl_align_spec p E (ulp_exp X - 1074)) as Hal.
  destruct (shl_align p E (ulp_exp X - 1074)) as [mz ez].
  destruct Hal as [Hez Hmz].
  pose proof (ulp_exp_nonneg X) as Hk.
  assert (Hsv : same_value mz ez X).
  { left. split; [lia|]. rewrite Hmz. unfold X.
    rewrite <- Z.mul_assoc, <- pow2_split by lia.
    f_equal. f_equal. lia. }
  apply binary_round_aux_scaled; try assumption.
  rewrite (same_value_fexp _ _ _ Hsv). lia.
Qed.

(** Subtraction of a smaller non-negative float. *)
Lemma fsub_scaled (a b : float) :
  good a -> good b -> scaled b <= scaled a ->
  fsub a b = of_scaled (rnd (scaled a - scaled b)).
Proof.
  intros Ha Hb Hle.
  assert (Hov : rnd (scaled a - scaled b) < 2 ^ 2098).
  { eapply Z.le_lt_trans.
    - apply (rnd_le_representable _ (scaled a)).
      + pose proof (scaled_nonneg b). lia.
      + apply good_representable; assumption.
    - pose proof (good_bound a Ha). lia. }
  destruct a as [[|] | | | [|] ma ea], b as [[|] | | | [|] mb eb];
    simpl in Ha, Hb; try tauto.
  - simpl in Hle. pose proof (pow2_pos (eb + 1074)).
    destruct (good_inv mb eb Hb) as (He & _). lia.
  - unfold fsub. cbn [SFsub scaled].
    rewrite Z.sub_0_r, rnd_representable_id
      by (apply (good_representable (S754_finite false ma ea)); assumption).
    symmetry. apply (good_of_scaled (S754_finite false ma ea)). assumption.
  - destruct (good_inv ma ea Ha) as (Hea & _).
    destruct (good_inv mb eb Hb) as (Heb & _).
    unfold fsub. cbn [SFsub cond_Zopp].
    pose proof (shl_align_spec ma ea (Z.min ea eb)) as H1.
    pose proof (shl_align_spec mb eb (Z.min ea eb)) as H2.
    destruct (shl_align ma ea (Z.min ea eb)) as [za e1].
    destruct (shl_align mb eb (Z.min ea eb)) as [zb e2].
    destruct H1 as [He1 Hza]. destruct H2 as [He2 Hzb].
    cbn [fst].
    set (ez := Z.min ea eb) in *.
    assert (Heq : (Zpos za - Zpos zb) * 2 ^ (ez + 1074) =
                  scaled (S754_finite false ma ea) - scaled (S754_finite false mb eb)).
    { cbn [scaled]. rewrite Hza, Hzb, Z.mul_sub_distr_r.
      rewrite <- !Z.mul_assoc, <- !pow2_split by lia.
      f_equal; f_equal; f_equal; lia. }
    rewrite <- Heq in *.
    apply binary_normalize_scaled; try lia.
    pose proof (pow2_pos (ez + 1074) ltac:(lia)). nia.
Qed.

(** The coercion [int -> float] of a non-negative integer. *)
Lemma float_of_int_scaled (z : Z) :
  0 <= z -> rnd (z * U) < 2 ^ 2098 ->
  float_of_int z = Ok (of_scaled (rnd (z * U))).
Proof.
  intros Hz Hov. unfold float_of_int, Z2F.
  rewrite (binary_normalize_scaled z 0) by (assumption || lia).
  change (2 ^ (0 + 1074)) with U.
  unfold of_scaled. destruct (rnd (z * U)); reflexivity.
Qed.

Lemma py_int_scaled (x : float) : good x -> py_int x = Ok (scaled x / U).
Proof.
  destruct x as [[|] | | | [|] m e]; cbn [good py_int scaled cond_Zopp];
    try tauto.
  intros H. destruct (good_inv m e H) as (He & _).
  f_equal. unfold U.
  destruct (Z.leb_spec 0 e) as [H0 | H0].
  - rewrite pow2_split, Z.mul_assoc by lia.
    rewrite Z.div_mul by (apply Z.pow_nonzero; lia). reflexivity.
  - replace 1074 with (- e + (e + 1074)) at 2 by lia.
    rewrite (pow2_split (- e) (e + 1074)) by lia.
    rewrite Z.div_mul_cancel_r; [reflexivity | |]; apply Z.pow_nonzero; lia.
Qed.

Lemma py_round_scaled (x : float) :
  good x -> py_round x = Ok (rne_div (scaled x) U).
Proof.
  destruct x as [[|] | | | [|] m e]; cbn [good py_round scaled cond_Zopp];
    try tauto.
  intros H. destruct (good_inv m e H) as (He & _).
  f_equal. unfold U.
  destruct (Z.leb_spec 0 e) as [H0 | H0].
  - rewrite pow2_split, Z.mul_assoc by lia.
    symmetry. apply rne_div_exact; [apply pow2_pos; lia | reflexivity].
  - replace 1074 with (- e + (e + 1074)) at 2 by lia.
    rewrite (pow2_split (- e) (e + 1074)) by lia.
    rewrite rne_div_scale; [reflexivity | |]; apply pow2_pos; lia.
Qed.

(** Multiplication by a positive integer constant held in a float with a
    full 53-bit mantissa. *)
Lemma fmul_const_scaled (a : float) (mc : positive) (ec c : Z) :
  good a ->
  2 ^ 52 <= Zpos mc -> ec <= 0 -> Zpos mc = c * 2 ^ (- ec) ->
  rnd (c * scaled a) < 2 ^ 2098 ->
  fmul a (S754_finite false mc ec) = of_scaled (rnd (c * scaled a)).
Proof.
  intros Ha Hmc Hec Hc Hov.
  destruct a as [[|] | | | [|] ma ea]; cbn [good] in Ha; try tauto.
  - cbn [scaled]. rewrite Z.mul_0_r. reflexivity.
  - destruct (good_inv ma ea Ha) as (Hea & _).
    unfold fmul. cbn [SFmul xorb]. cbn [scaled] in *.
    pose proof (pow2_pos (- ec) ltac:(lia)) as Hpc.
    apply binary_round_aux_scaled; [| | assumption].
    + unfold same_value. rewrite Pos2Z.inj_mul, Hc.
      destruct (Z_le_gt_dec 0 (ea + ec + 1074)) as [Hj | Hj]; [left | right];
        (split; [lia|]).
      * replace (ea + 1074) with (- ec + (ea + ec + 1074)) by lia.
        rewrite (pow2_split (- ec)) by lia. lia.
      * replace (- ec) with (ea + 1074 + - (ea + ec + 1074)) at 1 by lia.
        rewrite (pow2_split (ea + 1074)) by lia. lia.
    + rewrite fexp_binary64, Zdigits2_log2.
      assert (52 <= Z.log2 (Zpos (ma * mc))); [|lia].
      apply Z.log2_le_pow2; [lia|]. rewrite Pos2Z.inj_mul. nia.
Qed.

Lemma float_of_int_60 :
  float_of_int 60 = Ok (S754_finite false 8444249301319680 (-47)).
Proof. reflexivity. Qed.

Lemma float_of_int_10000 :
  float_of_int 10000 = Ok (S754_finite false 5497558138880000 (-39)).
Proof. reflexivity. Qed.

Lemma fmul_int_60 (a : float) :
  good a -> rnd (60 * scaled a) < 2 ^ 2098 ->
  fmul_int a 60 = Ok (of_scaled (rnd (60 * scaled a))).
Proof.
  intros Ha Hov. unfold fmul_int. rewrite float_of_int_60.
  cbn [mbind result_bind]. f_equal.
  apply fmul_const_scaled; try assumption; try lia; reflexivity.
Qed.

Lemma fmul_int_10000 (a : float) :
  good a -> rnd (10000 * scaled a) < 2 ^ 2098 ->
  fmul_int a 10000 = Ok (of_scaled (rnd (10000 * scaled a))).
Proof.
  intros Ha Hov. unfold fmul_int. rewrite float_of_int_10000.
  cbn [mbind result_bind]. f_equal.
  apply fmul_const_scaled; try assumption; try lia; reflexivity.
Qed.

(** Representable scaled integers are exactly the values of good floats. *)
Lemma representable_quot (Y : Z) :
  0 < Y -> representable Y ->
  Y = (Y / 2 ^ ulp_exp Y) * 2 ^ ulp_exp Y /\
  0 < Y / 2 ^ ulp_exp Y < 2 ^ 53 /\
  (0 < ulp_exp Y -> 2 ^ 52 <= Y / 2 ^ ulp_exp Y).
Proof.
  intros HY HR. unfold representable in HR.
  pose proof (ulp_exp_nonneg Y) as Hk.
  pose proof (pow2_pos _ Hk) as Hp.
  pose proof (Z.div_mod Y (2 ^ ulp_exp Y) ltac:(lia)) as Hdm.
  pose proof (log2_bounds Y HY) as [Hlo Hhi].
  assert (HYq : Y = Y / 2 ^ ulp_exp Y * 2 ^ ulp_exp Y) by lia.
  split; [assumption|].
  assert (Hhi' : Y < 2 ^ 53 * 2 ^ ulp_exp Y).
  { eapply Z.lt_le_trans; [exact Hhi|].
    rewrite <- pow2_split by lia.
    apply Z.pow_le_mono_r; unfold ulp_exp; lia. }
  split; [nia|].
  intros Hk0.
  assert (Hlo' : 2 ^ 52 * 2 ^ ulp_exp Y <= Y).
  { eapply Z.le_trans; [|exact Hlo].
    rewrite <- pow2_split by lia.
    apply Z.pow_le_mono_r; unfold ulp_exp in *; lia. }
  nia.
Qed.

Lemma of_scaled_good (Y : Z) :
  0 <= Y -> representable Y -> Y < 2 ^ 2098 ->
  good (of_scaled Y) /\ scaled (of_scaled Y) = Y.
Proof.
  intros HY HR Hov.
  destruct (Z.eq_dec Y 0) as [-> | HY0]; [split; reflexivity|].
  destruct (representable_quot Y ltac:(lia) HR) as (HYq & Hq & Hq52).
  pose proof (ulp_exp_nonneg Y) as Hk.
  unfold of_scaled. destruct Y as [| p | p]; try lia.
  remember (Zpos p) as Y eqn:EY.
  remember (ulp_exp Y) as k eqn:Ek.
  remember (Y / 2 ^ k) as q eqn:Eq.
  cbn [good scaled].
  assert (Hk2 : k <= 2045).
  { assert (Z.log2 Y < 2098) by (apply Z.log2_lt_pow2; lia).
    subst k. unfold ulp_exp. lia. }
  split.
  - unfold bounded, canonical_mantissa.
    apply andb_true_iff. split.
    + apply Z.eqb_eq. rewrite fexp_binary64.
      change (Zpos (digits2_pos (Z.to_pos q))) with (Zdigits2 (Zpos (Z.to_pos q))).
      rewrite Zdigits2_log2, Z2Pos.id by lia.
      assert (Z.log2 q < 53) by (apply Z.log2_lt_pow2; lia).
      destruct (Z.eq_dec k 0) as [-> | Hk0]; [lia|].
      assert (52 <= Z.log2 q) by (apply Z.log2_le_pow2; lia). lia.
    + apply Z.leb_le. unfold emax, prec. lia.
  - rewrite Z2Pos.id by lia.
    replace (k - 1074 + 1074) with k by lia. lia.
Qed.

(** The integer and fractional parts of a representable value are
    representable. *)
Lemma representable_parts (X : Z) :
  0 <= X -> representable X ->
  representable (X / U * U) /\ representable (X mod U).
Proof.
  intros HX HR.
  assert (HU : 0 < U) by (apply pow2_pos; lia).
  pose proof (Z.div_mod X U ltac:(lia)) as Hdm.
  pose proof (Z.mod_pos_bound X U HU) as Hmod.
  destruct (Z.eq_dec X 0) as [-> | HX0]; [split; reflexivity|].
  destruct (representable_quot X ltac:(lia) HR) as (HXq & Hq & _).
  pose proof (ulp_exp_nonneg X) as Hk.
  remember (ulp_exp X) as k eqn:Ek. clear Ek.
  remember (X / 2 ^ k) as q eqn:Eq. clear Eq.
  pose proof (pow2_pos k Hk) as Hp.
  destruct (Z_le_gt_dec 1074 k) as [Hbig | Hsmall].
  - (* an integer: no fractional part *)
    assert (Hm0 : X mod U = 0).
    { rewrite HXq. replace k with ((k - 1074) + 1074) by lia.
      rewrite pow2_split, Z.mul_assoc by lia. apply Z.mod_mul. unfold U. lia. }
    rewrite Hm0. split; [|reflexivity].
    replace (X / U * U) with X by lia. assumption.
  - assert (HUk : U = 2 ^ (1074 - k) * 2 ^ k).
    { unfold U. rewrite <- pow2_split by lia. f_equal. lia. }
    pose proof (pow2_pos (1074 - k) ltac:(lia)) as Hp2.
    assert (Hmq : X mod U = (q mod 2 ^ (1074 - k)) * 2 ^ k).
    { rewrite HXq at 1. rewrite HUk. apply Zmult_mod_distr_r. }
    pose proof (Z.mod_pos_bound q (2 ^ (1074 - k)) Hp2) as Hqm.
    pose proof (Z.mod_le q (2 ^ (1074 - k)) ltac:(lia) Hp2) as Hqle.
    split.
    + replace (X / U * U) with ((q - q mod 2 ^ (1074 - k)) * 2 ^ k) by lia.
      apply representable_mul_pow2; lia.
    + rewrite Hmq. apply representable_mul_pow2; lia.
Qed.

(** A representable value strictly below one sits at least one grid step
    (of the binade just below one) under it. *)
Lemma representable_below_one (Y : Z) :
  0 <= Y < U -> representable Y -> Y <= U - 2 ^ 1021.
Proof.
  intros [HY0 HYU] HR.
  destruct (Z.eq_dec Y 0) as [-> | HYn]; [unfold U; lia|].
  destruct (representable_quot Y ltac:(lia) HR) as (HYq & Hq & Hq52).
  pose proof (ulp_exp_nonneg Y) as Hk.
  assert (HL : Z.log2 Y < 1074) by (apply Z.log2_lt_pow2; unfold U in *; lia).
  destruct (Z.eq_dec (Z.log2 Y) 1073) as [E | E].
  - assert (Hk1 : ulp_exp Y = 1021) by (unfold ulp_exp; lia).
    rewrite Hk1 in HYq.
    assert (HUk : U = 2 ^ 53 * 2 ^ 1021) by reflexivity.
    rewrite HUk in *. pose proof (pow2_pos 1021 ltac:(lia)). nia.
  - pose proof (log2_bounds Y ltac:(lia)) as [_ Hhi].
    assert (2 ^ (Z.log2 Y + 1) <= 2 ^ 1073) by (apply Z.pow_le_mono_r; lia).
    assert (HUk : U = 2 ^ 1073 + 2 ^ 1073) by reflexivity.
    assert (2 ^ 1021 <= 2 ^ 1073) by (apply Z.pow_le_mono_r; lia).
    lia.
Qed.

Lemma rnd_representable (X : Z) : 0 <= X -> representable (rnd X).
Proof.
  intros HX.
  destruct (Z.eq_dec X 0) as [-> | HX0]; [reflexivity|].
  pose proof (ulp_exp_nonneg X) as Hk.
  unfold rnd.
  destruct (Z.eq_dec (ulp_exp X) 0) as [Hk0 | Hk0].
  - destruct (rne_div_ulp_small X ltac:(lia) Hk0) as [Hq Hlt].
    rewrite Hq. apply representable_mul_pow2; lia.
  - pose proof (rne_div_ulp_range X ltac:(lia) ltac:(lia)) as [Hlo Hhi].
    destruct (Z.eq_dec (rne_div X (2 ^ ulp_exp X)) (2 ^ 53)) as [E | E].
    + rewrite E. rewrite <- pow2_split by lia.
      replace (2 ^ (53 + ulp_exp X)) with (1 * 2 ^ (53 + ulp_exp X)) by lia.
      apply representable_mul_pow2; lia.
    + apply representable_mul_pow2; lia.
Qed.

Lemma representable_const (c : Z) : 0 <= c < 2 ^ 53 -> representable (c * U).
Proof. intros. apply representable_mul_pow2; lia. Qed.

Lemma rnd_le_const (c X : Z) :
  0 <= c < 2 ^ 53 -> 0 <= X <= c * U -> 0 <= rnd X <= c * U.
Proof.
  intros Hc HX. split; [apply rnd_nonneg; lia|].
  apply rnd_le_representable; [lia | apply representable_const; assumption].
Qed.

Lemma const_below_overflow (c : Z) : 0 <= c < 2 ^ 53 -> c * U < 2 ^ 2098.
Proof.
  intros Hc.
  assert (HU : 0 < U) by (apply pow2_pos; lia).
  assert (c * U < 2 ^ 53 * U) by nia.
  assert (2 ^ 53 * U = 2 ^ 1127) by reflexivity.
  assert (2 ^ 1127 < 2 ^ 2098) by (apply Z.pow_lt_mono_r; lia).
  lia.
Qed.

(** [x - int(x)] is computed exactly. *)
Lemma fsub_int_trunc (x : float) :
  good x ->
  fsub_int x (scaled x / U) = Ok (of_scaled (scaled x mod U)).
Proof.
  intros Hx.
  assert (HU : 0 < U) by (apply pow2_pos; lia).
  pose proof (scaled_nonneg x) as HX.
  pose proof (good_bound x Hx) as HXb.
  pose proof (good_representable x Hx) as HXr.
  destruct (representable_parts _ HX HXr) as [Hfl Hfr].
  pose proof (Z.div_mod (scaled x) U ltac:(lia)) as Hdm.
  pose proof (Z.mod_pos_bound (scaled x) U HU) as Hmod.
  assert (Hd : 0 <= scaled x / U) by (apply Z.div_pos; lia).
  assert (Hmax : (2 ^ 53 - 1) * 2 ^ 2045 < 2 ^ 2098).
  { replace (2 ^ 2098) with (2 ^ 53 * 2 ^ 2045) by (rewrite <- pow2_split by lia; reflexivity).
    pose proof (pow2_pos 2045 ltac:(lia)). lia. }
  unfold fsub_int.
  rewrite float_of_int_scaled; rewrite ?rnd_representable_id by assumption;
    try lia.
  cbn [mbind result_bind]. f_equal.
  destruct (of_scaled_good (scaled x / U * U)) as [Hg Hs]; try assumption; try lia.
  rewrite fsub_scaled; try assumption; rewrite Hs; [|lia].
  replace (scaled x - scaled x / U * U) with (scaled x mod U) by lia.
  rewrite rnd_representable_id by assumption. reflexivity.
Qed.

(** The intermediate values of [to_deg] stay in range. *)
Lemma to_deg_scaled_ranges (X : Z) :
  let F := X mod U in
  let MF := rnd (60 * F) in
  let G := MF mod U in
  let S1 := rnd (60 * G) in
  let S2 := rnd (10000 * S1) in
  (0 <= F < U) /\ (0 <= MF <= 60 * U) /\ (0 <= G < U) /\
  (0 <= S1 <= 60 * U) /\ (0 <= S2 <= 600000 * U).
Proof.
  intros F MF G S1 S2.
  assert (HU : 0 < U) by (apply pow2_pos; lia).
  assert (HF : 0 <= F < U) by (apply Z.mod_pos_bound; assumption).
  assert (HMF : 0 <= MF <= 60 * U) by (apply rnd_le_const; lia).
  assert (HG : 0 <= G < U) by (apply Z.mod_pos_bound; assumption).
  assert (HS1 : 0 <= S1 <= 60 * U) by (apply rnd_le_const; lia).
  assert (HS2 : 0 <= S2 <= 600000 * U) by (apply rnd_le_const; lia).
  tauto.
Qed.

(** [to_deg] never raises on a good float, and computes [to_deg_scaled]. *)
Lemma to_deg_good (v : float) :
  good v ->
  to_deg v =
  let '(d, m, s) := to_deg_scaled (scaled v) in
  Ok ((d, 1), (m, 1), (s, 10000)).
Proof.
  intros Hv. unfold to_deg, to_deg_scaled.
  destruct (to_deg_scaled_ranges (scaled v)) as (HF & HMF & HG & HS1 & HS2).
  cbv zeta in HF, HMF, HG, HS1, HS2.
  pose proof (const_below_overflow 1 ltac:(lia)) as Ho1.
  pose proof (const_below_overflow 60 ltac:(lia)) as Ho60.
  pose proof (const_below_overflow 600000 ltac:(lia)) as Ho6.
  pose proof (scaled_nonneg v) as HX.
  pose proof (good_representable v Hv) as HXr.
  destruct (representable_parts _ HX HXr) as [_ HFr].
  (* deg = int(value); value - deg *)
  rewrite py_int_scaled by assumption. cbn [mbind result_bind].
  rewrite fsub_int_trunc by assumption. cbn [mbind result_bind].
  destruct (of_scaled_good (scaled v mod U)) as [Hg1 Hs1]; try assumption; try lia.
  (* min_float *)
  rewrite fmul_int_60; rewrite ?Hs1; try assumption; try lia.
  cbn [mbind result_bind].
  set (MF := rnd (60 * (scaled v mod U))) in *.
  assert (HMFr : representable MF) by (apply rnd_representable; lia).
  destruct (of_scaled_good MF) as [Hg2 Hs2]; try assumption; try lia.
  (* minutes = int(min_float); min_float - minutes *)
  rewrite py_int_scaled by assumption. cbn [mbind result_bind].
  rewrite fsub_int_trunc by assumption. cbn [mbind result_bind].
  rewrite Hs2.
  destruct (representable_parts MF ltac:(lia) HMFr) as [_ HGr].
  destruct (of_scaled_good (MF mod U)) as [Hg3 Hs3]; try assumption; try lia.
  (* seconds *)
  rewrite fmul_int_60; rewrite ?Hs3; try assumption; try lia.
  cbn [mbind result_bind].
  set (S1 := rnd (60 * (MF mod U))) in *.
  assert (HS1r : representable S1) by (apply rnd_representable; lia).
  destruct (of_scaled_good S1) as [Hg4 Hs4]; try assumption; try lia.
  rewrite fmul_int_10000; rewrite ?Hs4; try assumption; try lia.
  cbn [mbind result_bind].
  set (S2 := rnd (10000 * S1)) in *.
  assert (HS2r : representable S2) by (apply rnd_representable; lia).
  destruct (of_scaled_good S2) as [Hg5 Hs5]; try assumption; try lia.
  rewrite py_round_scaled by assumption. cbn [mbind result_bind].
  rewrite Hs5. reflexivity.
Qed.

(** ** Error and range analysis on the scaled grid *)

Lemma rnd_error (X j : Z) :
  0 <= j -> 0 <= X < 2 ^ (53 + j) ->
  - 2 ^ j <= 2 * (rnd X - X) <= 2 ^ j.
Proof.
  intros Hj [HX0 HXj].
  pose proof (ulp_exp_nonneg X) as Hk.
  assert (Hkj : ulp_exp X <= j).
  { destruct (Z.eq_dec X 0) as [-> | HXn]; [unfold ulp_exp; simpl; lia|].
    assert (Z.log2 X < 53 + j) by (apply Z.log2_lt_pow2; lia).
    unfold ulp_exp. lia. }
  pose proof (pow2_pos _ Hk) as Hp.
  assert (2 ^ ulp_exp X <= 2 ^ j) by (apply Z.pow_le_mono_r; lia).
  pose proof (rne_div_bounds X (2 ^ ulp_exp X) Hp) as Hb.
  unfold rnd. nia.
Qed.

Lemma to_deg_scaled_error (X : Z) :
  0 <= X ->
  let '(d, m, s) := to_deg_scaled X in
  - U <= 36000000 * U * d + 600000 * U * m + s * U - 36000000 * X <= U.
Proof.
  intros HX. unfold to_deg_scaled.
  destruct (to_deg_scaled_ranges X) as (HF & HMF & HG & HS1 & HS2).
  cbv zeta in HF, HMF, HG, HS1, HS2.
  set (F := X mod U) in *. set (MF := rnd (60 * F)) in *.
  set (G := MF mod U) in *. set (S1 := rnd (60 * G)) in *.
  set (S2 := rnd (10000 * S1)) in *.
  assert (HU : 0 < U) by (apply pow2_pos; lia).
  pose proof (Z.div_mod X U ltac:(lia)) as HdX. fold F in HdX.
  pose proof (Z.div_mod MF U ltac:(lia)) as HdM. fold G in HdM.
  set (W := 2 ^ 1026).
  assert (HW : 0 < W) by (apply pow2_pos; lia).
  assert (HUW : U = 2 ^ 48 * W) by reflexivity.
  assert (He1 : - (2 * W) <= 2 * (MF - 60 * F) <= 2 * W).
  { replace (2 * W) with (2 ^ 1027) by reflexivity.
    apply rnd_error; [lia|]. change (2 ^ (53 + 1027)) with (64 * U). lia. }
  assert (He2 : - (2 * W) <= 2 * (S1 - 60 * G) <= 2 * W).
  { replace (2 * W) with (2 ^ 1027) by reflexivity.
    apply rnd_error; [lia|]. change (2 ^ (53 + 1027)) with (64 * U). lia. }
  assert (He3 : - (2 ^ 15 * W) <= 2 * (S2 - 10000 * S1) <= 2 ^ 15 * W).
  { replace (2 ^ 15 * W) with (2 ^ 1041) by reflexivity.
    apply rnd_error; [lia|]. change (2 ^ (53 + 1041)) with (2 ^ 20 * U). lia. }
  pose proof (rne_div_bounds S2 U HU) as He4.
  remember (rne_div S2 U) as s eqn:Es. clear Es.
  remember (X / U) as d eqn:Ed. clear Ed.
  remember (MF / U) as m eqn:Em. clear Em.
  clearbody F MF G S1 S2 W. lia.
Qed.

Lemma rnd_60_below (F : Z) : 0 <= F <= U - 2 ^ 1021 -> rnd (60 * F) < 60 * U.
Proof.
  intros [HF0 HF1].
  set (P := 2 ^ 1021) in *.
  assert (HP : 0 < P) by (apply pow2_pos; lia).
  assert (HUP : U = 2 ^ 53 * P) by reflexivity.
  destruct (Z.eq_dec F 0) as [-> | HFn]; [rewrite Z.mul_0_r, rnd_0; lia|].
  pose proof (ulp_exp_nonneg (60 * F)) as Hk.
  assert (Hk2 : ulp_exp (60 * F) <= 1027).
  { assert (Z.log2 (60 * F) < 1080); [|unfold ulp_exp; lia].
    apply Z.log2_lt_pow2; [lia|]. change (2 ^ 1080) with (64 * U). lia. }
  unfold rnd.
  remember (ulp_exp (60 * F)) as k eqn:Ek. clear Ek.
  pose proof (pow2_pos k Hk) as Hp.
  assert (Hpk : 2 ^ k <= 64 * P).
  { change (64 * P) with (2 ^ 1027). apply Z.pow_le_mono_r; lia. }
  assert (HN : 60 * U = 15 * 2 ^ (1076 - k) * 2 ^ k).
  { rewrite <- Z.mul_assoc, <- pow2_split by lia.
    replace (1076 - k + k) with 1076 by lia. reflexivity. }
  remember (15 * 2 ^ (1076 - k)) as N eqn:EN. clear EN.
  assert (rne_div (60 * F) (2 ^ k) <= N - 1).
  { apply rne_div_lt_upper; [assumption|]. nia. }
  nia.
Qed.

(** Minutes stay below 60 and the seconds numerator within [0, 600000]. *)
Lemma to_deg_scaled_bounds (X : Z) :
  0 <= X -> representable X ->
  let '(d, m, s) := to_deg_scaled X in
  0 <= d /\ 0 <= m <= 59 /\ 0 <= s <= 600000.
Proof.
  intros HX HR. unfold to_deg_scaled.
  destruct (to_deg_scaled_ranges X) as (HF & HMF & HG & HS1 & HS2).
  cbv zeta in HF, HMF, HG, HS1, HS2.
  assert (HU : 0 < U) by (apply pow2_pos; lia).
  destruct (representable_parts X HX HR) as [_ HFr].
  pose proof (representable_below_one _ HF HFr) as HF1.
  pose proof (rnd_60_below (X mod U) ltac:(lia)) as HMlt.
  split; [apply Z.div_pos; lia|]. split; [split|split].
  - apply Z.div_pos; lia.
  - assert (rnd (60 * (X mod U)) / U < 60); [|lia].
    apply Z.div_lt_upper_bound; lia.
  - apply rne_div_ge_lower; lia.
  - apply rne_div_le_upper; lia.
Qed.

(** ** Exact rational values *)

Lemma SF2Q_scaled (x : float) :
  good x -> (SF2Q x * inject_Z U == inject_Z (scaled x))%Q.
Proof.
  destruct x as [[|] | | | [|] m e]; cbn [good SF2Q scaled cond_Zopp];
    try tauto.
  - intros _. apply Qmult_0_l.
  - intros H. destruct (good_inv m e H) as (He & _).
    destruct (Z.leb_spec 0 e) as [H0 | H0].
    + rewrite <- inject_Z_mult. unfold U.
      rewrite pow2_split, Z.mul_assoc by lia. reflexivity.
    + pose proof (pow2_pos (- e) ltac:(lia)) as Hp.
      unfold Qeq. cbn [Qnum Qden Qmult inject_Z].
      rewrite Pos2Z.inj_mul, Z2Pos.id by assumption.
      unfold U. replace 1074 with (- e + (e + 1074)) at 1 by lia.
      rewrite (pow2_split (- e) (e + 1074)) by lia. lia.
Qed.

Lemma py_int_Qtrunc (x : float) :
  is_finite x = true -> py_int x = Ok (Qtrunc (SF2Q x)).
Proof.
  destruct x as [s | s | | s m e]; cbn [is_finite py_int SF2Q];
    try discriminate; intros _; [reflexivity|].
  f_equal. unfold Qtrunc.
  destruct (Z.leb_spec 0 e) as [H0 | H0].
  - cbn [inject_Z Qnum Qden]. rewrite Z.quot_1_r. reflexivity.
  - pose proof (pow2_pos (- e) ltac:(lia)) as Hp.
    cbn [Qnum Qden]. rewrite Z2Pos.id by assumption.
    destruct s; cbn [cond_Zopp].
    + rewrite Z.quot_opp_l, Z.quot_div_nonneg by lia. reflexivity.
    + rewrite Z.quot_div_nonneg by lia. reflexivity.
Qed.

Lemma py_round_Qround (x : float) :
  good x -> py_round x = Ok (Qround_half_even (SF2Q x)).
Proof.
  destruct x as [[|] | | | [|] m e]; cbn [good py_round SF2Q cond_Zopp];
    try tauto.
  intros _. f_equal. unfold Qround_half_even.
  destruct (Z.leb_spec 0 e) as [H0 | H0].
  - cbn [inject_Z Qnum Qden]. symmetry. apply rne_div_exact; lia.
  - pose proof (pow2_pos (- e) ltac:(lia)) as Hp.
    cbn [Qnum Qden]. rewrite Z2Pos.id by assumption. reflexivity.
Qed.

(** A well-formed, finite float that compares [>= 0] is good, or [-0.0]. *)
Lemma nonneg_cases (v : float) :
  valid v = true -> is_finite v = true -> fle fzero v = true ->
  v = S754_zero true \/ good v.
Proof.
  destruct v as [[|] | | | [|] m e]; cbn; intros Hv Hf Hle;
    try discriminate; auto.
Qed.

Lemma good_finite (x : float) : good x -> is_finite x = true.
Proof. destruct x as [[|] | | | [|] m e]; cbn; tauto. Qed.

(** One step each of the pipeline of [to_deg], with the float it yields. *)
Lemma frac_step (x : float) :
  good x ->
  exists r, fsub_int x (Qtrunc (SF2Q x)) = Ok r /\ r = fsub x (Z2F (Qtrunc (SF2Q x)))
            /\ py_int x = Ok (scaled x / U)
            /\ good r /\ scaled r = scaled x mod U.
Proof.
  intros Hx.
  assert (HU : 0 < U) by (apply pow2_pos; lia).
  pose proof (py_int_scaled x Hx) as H1.
  rewrite (py_int_Qtrunc x (good_finite x Hx)) in H1.
  injection H1 as H1. rewrite H1.
  pose proof (fsub_int_trunc x Hx) as H2.
  pose proof (scaled_nonneg x) as HX.
  destruct (representable_parts _ HX (good_representable x Hx)) as [_ HFr].
  pose proof (Z.mod_pos_bound (scaled x) U HU) as Hmod.
  pose proof (const_below_overflow 1 ltac:(lia)) as Ho1.
  destruct (of_scaled_good (scaled x mod U)) as [Hg Hs]; try assumption; try lia.
  exists (of_scaled (scaled x mod U)).
  split; [assumption|]. split; [|split; [rewrite <- H1; apply py_int_Qtrunc, good_finite, Hx|tauto]].
  unfold fsub_int, float_of_int in H2. fold (Z2F (scaled x / U)) in H2.
  destruct (Z2F (scaled x / U)); cbn [mbind result_bind] in H2; congruence.
Qed.

Lemma mul_step (x : float) (c bound : Z) :
  good x -> 0 <= scaled x <= bound * U ->
  0 < c -> 0 <= bound -> c * bound < 2 ^ 53 ->
  (exists mc ec, float_of_int c = Ok (S754_finite false mc ec) /\
                 2 ^ 52 <= Zpos mc /\ ec <= 0 /\ Zpos mc = c * 2 ^ (- ec)) ->
  exists r, fmul_int x c = Ok r /\ r = fmul x (Z2F c) /\
            good r /\ scaled r = rnd (c * scaled x).
Proof.
  intros Hx Hb Hc Hbd Hcb (mc & ec & Hfc & Hmc & Hec & Hval).
  assert (HU : 0 < U) by (apply pow2_pos; lia).
  assert (Hr : 0 <= rnd (c * scaled x) <= c * bound * U)
    by (apply rnd_le_const; nia).
  pose proof (const_below_overflow (c * bound) ltac:(nia)) as Hov.
  destruct (of_scaled_good (rnd (c * scaled x))) as [Hg Hs];
    [lia | apply rnd_representable; nia | lia |].
  exists (of_scaled (rnd (c * scaled x))).
  assert (HF : Z2F c = S754_finite false mc ec).
  { unfold float_of_int in Hfc. fold (Z2F c) in Hfc.
    destruct (Z2F c); congruence. }
  rewrite HF. unfold fmul_int. rewrite Hfc. cbn [mbind result_bind].
  rewrite (fmul_const_scaled x mc ec c) by (assumption || lia).
  tauto.
Qed.

Lemma const_60 :
  exists mc ec, float_of_int 60 = Ok (S754_finite false mc ec) /\
                2 ^ 52 <= Zpos mc /\ ec <= 0 /\ Zpos mc = 60 * 2 ^ (- ec).
Proof. exists 8444249301319680%positive, (-47). repeat split; cbn; lia. Qed.

Lemma const_10000 :
  exists mc ec, float_of_int 10000 = Ok (S754_finite false mc ec) /\
                2 ^ 52 <= Zpos mc /\ ec <= 0 /\ Zpos mc = 10000 * 2 ^ (- ec).
Proof. exists 5497558138880000%positive, (-39). repeat split; cbn; lia. Qed.

(** ** [to_deg]: value, range and accuracy *)

Lemma U_pos_Q : (0 < inject_Z U)%Q.
Proof.
  change 0%Q with (inject_Z 0). rewrite <- Zlt_Qlt. apply pow2_pos. lia.
Qed.

Lemma frac_exact (x r : float) :
  good x -> good r -> scaled r = scaled x mod U ->
  (SF2Q r == SF2Q x - inject_Z (scaled x / U))%Q.
Proof.
  intros Hx Hr Hs.
  pose proof U_pos_Q as Hu.
  assert (HU : 0 < U) by (apply pow2_pos; lia).
  apply (Qmult_inj_r _ _ (inject_Z U)); [intros E; rewrite E in Hu; discriminate|].
  rewrite (SF2Q_scaled r Hr), Hs.
  setoid_replace ((SF2Q x - inject_Z (scaled x / U)) * inject_Z U)%Q
      with (SF2Q x * inject_Z U - inject_Z (scaled x / U) * inject_Z U)%Q using relation Qeq by ring.
  rewrite (SF2Q_scaled x Hx), <- inject_Z_mult.
  unfold Qminus. rewrite <- inject_Z_opp, <- inject_Z_plus.
  pose proof (Z.div_mod (scaled x) U ltac:(lia)) as Hdm.
  replace (scaled x mod U) with (scaled x + - (scaled x / U * U)) by lia.
  reflexivity.
Qed.

(** C1.  For every non-negative finite [v], [to_deg v] returns
    [((d,1),(m,1),(s,10000))] where [d] is the integer truncation of [v],
    [m] the integer truncation of [(v - d) * 60] and [s] the rounding of
    [((v - d) * 60 - m) * 60 * 10000], the products being float products
    and both subtractions exact; and
    [to_deg 0.0 = ((0,1),(0,1),(0,10000))]. *)
Theorem to_deg_spec (v : float) :
  valid v = true -> is_finite v = true -> fle fzero v = true ->
  let d := Qtrunc (SF2Q v) in
  let frac := fsub v (Z2F d) in
  let min_float := fmul frac (Z2F 60) in
  let m := Qtrunc (SF2Q min_float) in
  let rest := fsub min_float (Z2F m) in
  let s := Qround_half_even (SF2Q (fmul (fmul rest (Z2F 60)) (Z2F 10000))) in
  to_deg v = Ok ((d, 1), (m, 1), (s, 10000)) /\
  (SF2Q frac == SF2Q v - inject_Z d)%Q /\
  (SF2Q rest == SF2Q min_float - inject_Z m)%Q /\
  to_deg fzero = Ok ((0, 1), (0, 1), (0, 10000)).
Proof.
  intros Hv Hf Hle.
  destruct (nonneg_cases v Hv Hf Hle) as [-> | Hg].
  { cbv zeta. repeat split. }
  intros d frac min_float m rest s.
  assert (HU : 0 < U) by (apply pow2_pos; lia).
  destruct (frac_step v Hg) as (r1 & E1 & Er1 & Ei1 & Hg1 & Hs1).
  fold d in E1, Er1. fold frac in Er1. subst r1.
  assert (Hd : d = scaled v / U).
  { pose proof (py_int_Qtrunc v Hf) as H. rewrite Ei1 in H. unfold d. congruence. }
  pose proof (Z.mod_pos_bound (scaled v) U HU) as Hmod1.
  destruct (mul_step frac 60 1 Hg1 ltac:(lia) ltac:(lia) ltac:(lia)
              ltac:(lia) const_60)
    as (r2 & E2 & Er2 & Hg2 & Hs2).
  fold min_float in Er2. subst r2.
  destruct (frac_step min_float Hg2) as (r3 & E3 & Er3 & Ei3 & Hg3 & Hs3).
  fold m in E3, Er3. fold rest in Er3. subst r3.
  assert (Hm : m = scaled min_float / U).
  { pose proof (py_int_Qtrunc min_float (good_finite _ Hg2)) as H.
    rewrite Ei3 in H. unfold m. congruence. }
  pose proof (Z.mod_pos_bound (scaled min_float) U HU) as Hmod2.
  destruct (mul_step rest 60 1 Hg3 ltac:(lia) ltac:(lia) ltac:(lia)
              ltac:(lia) const_60)
    as (r4 & E4 & Er4 & Hg4 & Hs4).
  subst r4.
  assert (Hb4 : 0 <= scaled (fmul rest (Z2F 60)) <= 60 * U).
  { rewrite Hs4. apply rnd_le_const; lia. }
  destruct (mul_step (fmul rest (Z2F 60)) 10000 60 Hg4 Hb4 ltac:(lia)
              ltac:(lia) ltac:(lia) const_10000)
    as (r5 & E5 & Er5 & Hg5 & Hs5).
  subst r5.
  split; [|split; [|split]].
  - unfold to_deg.
    rewrite (py_int_Qtrunc v Hf). cbn [mbind result_bind].
    fold d. rewrite E1. cbn [mbind result_bind].
    rewrite E2. cbn [mbind result_bind].
    rewrite (py_int_Qtrunc min_float (good_finite _ Hg2)). cbn [mbind result_bind].
    fold m. rewrite E3. cbn [mbind result_bind].
    rewrite E4. cbn [mbind result_bind].
    rewrite E5. cbn [mbind result_bind].
    rewrite (py_round_Qround _ Hg5). cbn [mbind result_bind].
    reflexivity.
  - rewrite Hd. apply frac_exact; assumption.
  - rewrite Hm. apply frac_exact; assumption.
  - reflexivity.
Qed.

(** C9.  For every non-negative finite [v] the minutes numerator of
    [to_deg v] lies in [0, 59] and the seconds numerator in [0, 600000];
    the bound 600000 (a full 60.0000 seconds) is attained at
    [v = 0.99999999], so the triple is not renormalised. *)
Theorem to_deg_bounds (v : float) :
  valid v = true -> is_finite v = true -> fle fzero v = true ->
  (exists d m s : Z,
     to_deg v = Ok ((d, 1), (m, 1), (s, 10000)) /\
     0 <= m <= 59 /\ 0 <= s <= 600000) /\
  to_deg v_099999999 = Ok ((0, 1), (59, 1), (600000, 10000)).
Proof.
  intros Hv Hf Hle. split; [|reflexivity].
  destruct (nonneg_cases v Hv Hf Hle) as [-> | Hg].
  { exists 0, 0, 0. repeat split; lia. }
  rewrite (to_deg_good v Hg).
  pose proof (to_deg_scaled_bounds (scaled v) (scaled_nonneg v)
                (good_representable v Hg)) as Hb.
  destruct (to_deg_scaled (scaled v)) as [[d m] s].
  exists d, m, s. split; [reflexivity | tauto].
Qed.

(** C2.  For every [v] in [[0, 180)], converting [to_deg v] back to
    decimal degrees, [degrees + minutes/60 + (seconds/10000)/3600],
    reconstructs [v] to within 1/10000 of a second. *)
Theorem to_deg_reconstructs (v : float) :
  valid v = true -> fle fzero v = true -> flt v (Z2F 180) = true ->
  exists t : dms,
    to_deg v = Ok t /\
    (Qabs (dms_to_degrees t - SF2Q v) <= (1 / 10000) / 3600)%Q.
Proof.
  intros Hv Hle Hlt.
  assert (Hf : is_finite v = true).
  { destruct v as [| [|] | |]; try reflexivity; discriminate. }
  destruct (nonneg_cases v Hv Hf Hle) as [-> | Hg].
  { eexists. split; [reflexivity|]. vm_compute. discriminate. }
  rewrite (to_deg_good v Hg).
  pose proof (to_deg_scaled_error (scaled v) (scaled_nonneg v)) as He.
  destruct (to_deg_scaled (scaled v)) as [[d m] s].
  eexists. split; [reflexivity|].
  pose proof U_pos_Q as Hu.
  pose proof (SF2Q_scaled v Hg) as Hx.
  destruct He as [Hlo Hhi].
  rewrite Zle_Qle in Hlo, Hhi.
  rewrite inject_Z_opp in Hlo.
  unfold Z.sub in Hlo, Hhi.
  rewrite !inject_Z_plus, inject_Z_opp, !inject_Z_mult, <- Hx in Hlo, Hhi.
  cbn [dms_to_degrees].
  remember (SF2Q v) as x eqn:Ex. clear Ex Hx.
  remember (inject_Z U) as u eqn:Eu. clear Eu.
  remember (inject_Z d) as qd. remember (inject_Z m) as qm.
  remember (inject_Z s) as qs.
  change (inject_Z 1) with 1%Q. change (inject_Z 10000) with 10000%Q.
  change (inject_Z 36000000) with 36000000%Q in Hlo, Hhi.
  change (inject_Z 600000) with 600000%Q in Hlo, Hhi.
  apply Qabs_Qle_condition. split.
  - apply (Qmult_le_r _ _ u Hu).
    setoid_replace ((qd / 1 + qm / 1 / 60 + qs / 10000 / 3600 - x) * u)%Q
      with ((36000000 * u * qd + 600000 * u * qm + qs * u
             + - (36000000 * (x * u))) / 36000000)%Q
      using relation Qeq by field.
    setoid_replace (- (1 / 10000 / 3600) * u)%Q
      with (- u / 36000000)%Q using relation Qeq by field.
    apply Qmult_le_compat_r; [assumption | discriminate].
  - apply (Qmult_le_r _ _ u Hu).
    setoid_replace ((qd / 1 + qm / 1 / 60 + qs / 10000 / 3600 - x) * u)%Q
      with ((36000000 * u * qd + 600000 * u * qm + qs * u
             + - (36000000 * (x * u))) / 36000000)%Q
      using relation Qeq by field.
    setoid_replace (1 / 10000 / 3600 * u)%Q
      with (u / 36000000)%Q using relation Qeq by field.
    apply Qmult_le_compat_r; [assumption | discriminate].
Qed.

(** ** Runs of [add_gps_to_image] *)

Lemma written_gps_app (t1 t2 : list event) :
  written_gps (t1 ++ t2) = written_gps t1 ++ written_gps t2.
Proof. unfold written_gps. apply omap_app. Qed.

Lemma truthy_ifd (g : gmap Z tag_value) :
  truthy_get (Some (Ifd g)) = negb (bool_decide (g = ∅)).
Proof.
  cbn [truthy_get truthy_group]. f_equal.
  destruct (decide (g = ∅)) as [-> | Hne].
  - rewrite bool_decide_eq_true_2 by reflexivity. reflexivity.
  - rewrite bool_decide_eq_false_2 by assumption.
    apply Nat.eqb_neq. intros Hs. apply Hne.
    apply map_size_empty_iff. assumption.
Qed.

Lemma loads_only_load (C : collaborators) (ex : option string)
    (d : gmap string group) (evs : list event) :
  loads C ex d evs ->
  written_gps evs = [] /\ Forall (fun e => exists blob, e = EvLoad blob) evs.
Proof.
  intros [blob d' Ht Hl | blob Ht |]; split; try reflexivity;
    repeat constructor. eexists. reflexivity.
Qed.

Section MergerFacts.

Variable C : collaborators.

(** The run up to the overwrite guard. *)
Lemma run_to_guard (w : world) (path data fmt : string) (ex : option string)
    (d : gmap string group) (evs : list event) (lat lon : float)
    (overwrite : bool) :
  files w !! path = Some data ->
  image_open C data = Some (fmt, ex) ->
  fmt = "JPEG" \/ fmt = "TIFF" ->
  loads C ex d evs ->
  add_gps_to_image C path lat lon overwrite w =
  (if truthy_get (d !! "GPS") && truthy_get (d !! "GPS") && negb overwrite
   then raise RuntimeError
   else
     gps_ifd ← lift (gps_ifd_of lat lon);
     exif_bytes ← dump C (<["GPS" := Ifd gps_ifd]> d);
     _ ← insert_exif C exif_bytes path;
     emit (EvPrint path))
    {| files := files w; trace := trace w ++ EvOpen path :: evs |}.
Proof.
  intros Hf Ho Hfmt Hl. unfold add_gps_to_image.
  msimpl. rewrite Hf. cbn [negb option_bind files trace].
  rewrite Hf. cbn [option_bind]. rewrite Ho.
  assert (Hb : String.eqb fmt "JPEG" || String.eqb fmt "TIFF" = true)
    by (destruct Hfmt as [-> | ->]; reflexivity).
  rewrite Hb. cbn [negb].
  destruct Hl as [blob d' Ht Hld | blob Ht |].
  - rewrite Ht. cbn [files trace]. rewrite Hld.
    rewrite <- app_assoc. reflexivity.
  - rewrite Ht. reflexivity.
  - reflexivity.
Qed.

Lemma run_not_found (w : world) (path : string) (lat lon : float)
    (overwrite : bool) :
  files w !! path = None ->
  add_gps_to_image C path lat lon overwrite w = (Raise FileNotFoundError, w).
Proof.
  intros Hf. unfold add_gps_to_image. msimpl. rewrite Hf. reflexivity.
Qed.

Lemma run_open_fails (w : world) (path data : string) (lat lon : float)
    (overwrite : bool) :
  files w !! path = Some data -> image_open C data = None ->
  add_gps_to_image C path lat lon overwrite w =
  (Raise (CollaboratorError ImageOpen),
   {| files := files w; trace := trace w ++ [EvOpen path] |}).
Proof.
  intros Hf Ho. unfold add_gps_to_image.
  msimpl. rewrite Hf. cbn [negb option_bind files trace].
  rewrite Hf. cbn [option_bind]. rewrite Ho. reflexivity.
Qed.

Lemma run_unsupported (w : world) (path data fmt : string)
    (ex : option string) (lat lon : float) (overwrite : bool) :
  files w !! path = Some data ->
  image_open C data = Some (fmt, ex) ->
  String.eqb fmt "JPEG" || String.eqb fmt "TIFF" = false ->
  add_gps_to_image C path lat lon overwrite w =
  (Raise (ValueError (UnsupportedFormat fmt)),
   {| files := files w; trace := trace w ++ [EvOpen path] |}).
Proof.
  intros Hf Ho Hb. unfold add_gps_to_image.
  msimpl. rewrite Hf. cbn [negb option_bind files trace].
  rewrite Hf. cbn [option_bind]. rewrite Ho, Hb. reflexivity.
Qed.

Lemma run_load_fails (w : world) (path data fmt blob : string)
    (lat lon : float) (overwrite : bool) :
  files w !! path = Some data ->
  image_open C data = Some (fmt, Some blob) ->
  String.eqb fmt "JPEG" || String.eqb fmt "TIFF" = true ->
  truthy_bytes blob = true -> piexif_load C blob = None ->
  add_gps_to_image C path lat lon overwrite w =
  (Raise (CollaboratorError PiexifLoad),
   {| files := files w; trace := trace w ++ [EvOpen path; EvLoad blob] |}).
Proof.
  intros Hf Ho Hb Ht Hl. unfold add_gps_to_image.
  msimpl. rewrite Hf. cbn [negb option_bind files trace].
  rewrite Hf. cbn [option_bind]. rewrite Ho, Hb. cbn [negb].
  rewrite Ht. cbn [files trace]. rewrite Hl.
  rewrite <- app_assoc. reflexivity.
Qed.

(** Every way the probe and load phases can end. *)
Lemma run_prefix_cases (w : world) (path : string) (lat lon : float)
    (overwrite : bool) :
  (exists e w1,
     add_gps_to_image C path lat lon overwrite w = (Raise e, w1) /\
     files w1 = files w /\ written_gps (trace w1) = written_gps (trace w)) \/
  (exists data fmt ex d evs,
     files w !! path = Some data /\ image_open C data = Some (fmt, ex) /\
     (fmt = "JPEG" \/ fmt = "TIFF") /\ loads C ex d evs).
Proof.
  destruct (files w !! path) as [data |] eqn:Hf;
    [| left; do 2 eexists; split; [apply run_not_found; assumption | split; reflexivity]].
  destruct (image_open C data) as [[fmt ex] |] eqn:Ho;
    [| left; do 2 eexists; split; [eapply run_open_fails; eassumption |
       split; [reflexivity | cbn [trace]; rewrite written_gps_app, app_nil_r; reflexivity]]].
  destruct (String.eqb fmt "JPEG" || String.eqb fmt "TIFF") eqn:Hb;
    [| left; do 2 eexists; split; [eapply run_unsupported; eassumption |
       split; [reflexivity | cbn [trace]; rewrite written_gps_app, app_nil_r; reflexivity]]].
  assert (Hfmt : fmt = "JPEG" \/ fmt = "TIFF").
  { apply orb_true_iff in Hb as [Hb | Hb]; apply String.eqb_eq in Hb; auto. }
  destruct ex as [blob |]; [destruct (truthy_bytes blob) eqn:Ht |].
  - destruct (piexif_load C blob) as [d |] eqn:Hl.
    + right. exists data, fmt, (Some blob), d, [EvLoad blob].
      repeat split; try assumption. constructor; assumption.
    + left. do 2 eexists. split; [eapply run_load_fails; eassumption|].
      split; [reflexivity|]. cbn [trace].
      rewrite written_gps_app, app_nil_r. reflexivity.
  - right. exists data, fmt, (Some blob), empty_exif, [].
    repeat split; try assumption. constructor; assumption.
  - right. exists data, fmt, None, empty_exif, [].
    repeat split; try assumption. constructor.
Qed.

(** The write-back phase (gps.py lines 65-69) on a merged tree. *)
Lemma run_write_back (w : world) (path data : string)
    (merged : gmap string group) :
  files w !! path = Some data ->
  (exif_bytes ← dump C merged;
   _ ← insert_exif C exif_bytes path;
   emit (EvPrint path)) w =
  match piexif_dump C merged with
  | None =>
      (Raise (CollaboratorError PiexifDump),
       {| files := files w; trace := trace w ++ [EvDump merged] |})
  | Some exif_bytes =>
      let '(data', ok) := piexif_insert C exif_bytes data in
      if ok
      then (Ok tt,
            {| files := <[path := data']> (files w);
               trace := trace w ++ [EvDump merged; EvInsert exif_bytes path;
                                    EvPrint path] |})
      else (Raise (CollaboratorError PiexifInsert),
            {| files := <[path := data']> (files w);
               trace := trace w ++ [EvDump merged; EvInsert exif_bytes path] |})
  end.
Proof.
  intros Hf. msimpl.
  destruct (piexif_dump C merged) as [exif_bytes |]; [|reflexivity].
  cbn [files trace]. rewrite Hf.
  destruct (piexif_insert C exif_bytes data) as [data' [|]];
    cbn [files trace]; rewrite <- !app_assoc; reflexivity.
Qed.

End MergerFacts.

Section MergerRuns.

Variable C : collaborators.

(** The whole run once the tag tree is loaded. *)
Lemma run_after_load (w : world) (path data fmt : string)
    (ex : option string) (d : gmap string group) (evs : list event)
    (lat lon : float) (overwrite : bool) :
  files w !! path = Some data ->
  image_open C data = Some (fmt, ex) ->
  fmt = "JPEG" \/ fmt = "TIFF" ->
  loads C ex d evs ->
  let w1 := {| files := files w; trace := trace w ++ EvOpen path :: evs |} in
  add_gps_to_image C path lat lon overwrite w =
  if truthy_get (d !! "GPS") && negb overwrite
  then (Raise RuntimeError, w1)
  else
    match gps_ifd_of lat lon with
    | Raise e => (Raise e, w1)
    | Ok g =>
        let merged := <["GPS" := Ifd g]> d in
        match piexif_dump C merged with
        | None =>
            (Raise (CollaboratorError PiexifDump),
             {| files := files w; trace := trace w1 ++ [EvDump merged] |})
        | Some exif_bytes =>
            let '(data', ok) := piexif_insert C exif_bytes data in
            if ok
            then (Ok tt,
                  {| files := <[path := data']> (files w);
                     trace := trace w1 ++ [EvDump merged;
                                           EvInsert exif_bytes path;
                                           EvPrint path] |})
            else (Raise (CollaboratorError PiexifInsert),
                  {| files := <[path := data']> (files w);
                     trace := trace w1 ++ [EvDump merged;
                                           EvInsert exif_bytes path] |})
        end
    end.
Proof.
  intros Hf Ho Hfmt Hl w1.
  rewrite (run_to_guard C _ _ _ _ _ _ _ lat lon overwrite Hf Ho Hfmt Hl).
  fold w1.
  replace (truthy_get (d !! "GPS") && truthy_get (d !! "GPS"))
    with (truthy_get (d !! "GPS")) by (destruct (truthy_get (d !! "GPS")); reflexivity).
  destruct (truthy_get (d !! "GPS") && negb overwrite); [reflexivity|].
  destruct (gps_ifd_of lat lon) as [g | e] eqn:Hg.
  - change ((gps_ifd ← lift (Ok g);
             exif_bytes ← dump C (<["GPS" := Ifd gps_ifd]> d);
             _ ← insert_exif C exif_bytes path;
             emit (EvPrint path)) w1)
      with ((exif_bytes ← dump C (<["GPS" := Ifd g]> d);
             _ ← insert_exif C exif_bytes path;
             emit (EvPrint path)) w1).
    apply (run_write_back C w1 path data). exact Hf.
  - reflexivity.
Qed.

(** A run that returns normally went through every phase. *)
Lemma run_ok_inv (w w' : world) (path : string) (lat lon : float)
    (overwrite : bool) :
  add_gps_to_image C path lat lon overwrite w = (Ok tt, w') ->
  exists data fmt ex d evs g exif_bytes,
    files w !! path = Some data /\
    image_open C data = Some (fmt, ex) /\
    (fmt = "JPEG" \/ fmt = "TIFF") /\
    loads C ex d evs /\
    truthy_get (d !! "GPS") && negb overwrite = false /\
    gps_ifd_of lat lon = Ok g /\
    piexif_dump C (<["GPS" := Ifd g]> d) = Some exif_bytes /\
    w' = {| files := <[path := (piexif_insert C exif_bytes data).1]> (files w);
            trace := trace w ++ EvOpen path :: evs ++
                     [EvDump (<["GPS" := Ifd g]> d);
                      EvInsert exif_bytes path; EvPrint path] |}.
Proof.
  intros Hrun.
  destruct (run_prefix_cases C w path lat lon overwrite)
    as [(e & w1 & Hr & _) | (data & fmt & ex & d & evs & Hf & Ho & Hfmt & Hl)];
    [congruence|].
  rewrite (run_after_load _ _ _ _ _ _ _ lat lon overwrite Hf Ho Hfmt Hl) in Hrun.
  cbv zeta in Hrun. cbn [trace] in Hrun.
  destruct (truthy_get (d !! "GPS") && negb overwrite) eqn:Hguard;
    [discriminate|].
  destruct (gps_ifd_of lat lon) as [g | e] eqn:Hg; [|discriminate].
  destruct (piexif_dump C (<["GPS" := Ifd g]> d)) as [exif_bytes |] eqn:Hd;
    [|discriminate].
  destruct (piexif_insert C exif_bytes data) as [data' [|]] eqn:Hi;
    [|discriminate].
  exists data, fmt, ex, d, evs, g, exif_bytes.
  rewrite Hi. cbn [fst]. repeat split; try assumption.
  injection Hrun as <-. rewrite <- app_assoc. reflexivity.
Qed.

(** Whatever the outcome, a run dumps at most once, and then the GPS group
    of the dumped tree is the GPS IFD of the coordinates. *)
Lemma run_written (w w' : world) (r : result unit) (path : string)
    (lat lon : float) (overwrite : bool) :
  add_gps_to_image C path lat lon overwrite w = (r, w') ->
  written_gps (trace w') = written_gps (trace w) \/
  exists g, gps_ifd_of lat lon = Ok g /\
            written_gps (trace w') = written_gps (trace w) ++ [Some (Ifd g)].
Proof.
  intros Hrun.
  destruct (run_prefix_cases C w path lat lon overwrite)
    as [(e & w1 & Hr & _ & Hw) | (data & fmt & ex & d & evs & Hf & Ho & Hfmt & Hl)].
  { left. congruence. }
  rewrite (run_after_load _ _ _ _ _ _ _ lat lon overwrite Hf Ho Hfmt Hl) in Hrun.
  cbv zeta in Hrun. cbn [trace] in Hrun.
  destruct (loads_only_load _ _ _ _ Hl) as [Hwl _].
  assert (Hpre : written_gps (trace w ++ EvOpen path :: evs) = written_gps (trace w)).
  { rewrite written_gps_app. change (written_gps (EvOpen path :: evs)) with (written_gps evs).
    rewrite Hwl, app_nil_r. reflexivity. }
  destruct (truthy_get (d !! "GPS") && negb overwrite).
  { left. injection Hrun as _ <-. exact Hpre. }
  destruct (gps_ifd_of lat lon) as [g | e] eqn:Hg.
  2:{ left. injection Hrun as _ <-. exact Hpre. }
  right. exists g. split; [reflexivity|].
  assert (Hdump : forall rest,
             written_gps ((trace w ++ EvOpen path :: evs) ++
                          EvDump (<["GPS" := Ifd g]> d) :: rest) =
             written_gps (trace w) ++ Some (Ifd g) :: written_gps rest).
  { intros rest. rewrite written_gps_app, Hpre. f_equal.
    change (written_gps (EvDump ?t :: rest))
      with ((t !! "GPS") :: written_gps rest).
    rewrite lookup_insert_eq. reflexivity. }
  destruct (piexif_dump C (<["GPS" := Ifd g]> d)) as [exif_bytes |].
  - destruct (piexif_insert C exif_bytes data) as [data' [|]];
      injection Hrun as _ <-; cbn [trace]; apply Hdump.
  - injection Hrun as _ <-. cbn [trace]. apply Hdump.
Qed.

End MergerRuns.

(** ** The GPS IFD *)

Lemma fabs_good (x : float) :
  valid x = true -> is_finite x = true -> good (fabs x).
Proof. destruct x as [[|] | | | [|] m e]; cbn; auto; discriminate. Qed.

Lemma gps_ifd_of_entries (lat lon : float) (g : gmap Z tag_value) :
  gps_ifd_of lat lon = Ok g ->
  exists lat_dms lon_dms,
    to_deg (fabs lat) = Ok lat_dms /\ to_deg (fabs lon) = Ok lon_dms /\
    size g = 4%nat /\
    g !! GPSIFD.GPSLatitudeRef =
      Some (TagBytes (if fle (Z2F 0) lat then "N" else "S")) /\
    g !! GPSIFD.GPSLatitude = Some (dms_tag lat_dms) /\
    g !! GPSIFD.GPSLongitudeRef =
      Some (TagBytes (if fle (Z2F 0) lon then "E" else "W")) /\
    g !! GPSIFD.GPSLongitude = Some (dms_tag lon_dms) /\
    (forall k, is_Some (g !! k) ->
               k = GPSIFD.GPSLatitudeRef \/ k = GPSIFD.GPSLatitude \/
               k = GPSIFD.GPSLongitudeRef \/ k = GPSIFD.GPSLongitude).
Proof.
  unfold gps_ifd_of. intros H.
  destruct (to_deg (fabs lat)) as [lat_dms | e]; [|discriminate].
  destruct (to_deg (fabs lon)) as [lon_dms | e]; [|discriminate].
  cbn [mbind result_bind] in H. injection H as <-.
  exists lat_dms, lon_dms.
  repeat split; try reflexivity.
  intros k [v Hk].
  unfold GPSIFD.GPSLatitudeRef, GPSIFD.GPSLatitude, GPSIFD.GPSLongitudeRef,
    GPSIFD.GPSLongitude in *.
  destruct (decide (k = 1)); [auto|].
  destruct (decide (k = 2)); [auto|].
  destruct (decide (k = 3)); [auto|].
  destruct (decide (k = 4)); [auto|].
  rewrite !lookup_insert_ne, lookup_empty in Hk by congruence. discriminate.
Qed.

Section MergerTheorems.

Variable C : collaborators.

Lemma run_ok_written (w w' : world) (path : string) (lat lon : float)
    (overwrite : bool) :
  add_gps_to_image C path lat lon overwrite w = (Ok tt, w') ->
  exists g, gps_ifd_of lat lon = Ok g /\
            written_gps (trace w') = written_gps (trace w) ++ [Some (Ifd g)].
Proof.
  intros Hrun.
  destruct (run_written C _ _ _ _ _ _ _ Hrun) as [Hsame | Hone]; [|exact Hone].
  exfalso.
  destruct (run_ok_inv C _ _ _ _ _ _ Hrun)
    as (data & fmt & ex & d & evs & g & bytes & _ & _ & _ & Hl & _ & _ & _ & ->).
  cbn [trace] in Hsame.
  destruct (loads_only_load _ _ _ _ Hl) as [Hwl _].
  rewrite written_gps_app in Hsame.
  change (written_gps (EvOpen path :: ?l)) with (written_gps l) in Hsame.
  rewrite written_gps_app, Hwl in Hsame.
  apply (f_equal length) in Hsame.
  rewrite length_app in Hsame. cbn in Hsame. lia.
Qed.

(** C6.  On an existing file whose detected format is neither JPEG nor
    TIFF, [add_gps_to_image] raises the unsupported-format [ValueError]
    right after the format probe: no decode, merge or write is attempted
    and the files are untouched. *)
Theorem unsupported_format_rejected
    (w : world) (path data fmt : string) (ex : option string)
    (lat lon : float) (overwrite : bool) :
  files w !! path = Some data ->
  image_open C data = Some (fmt, ex) ->
  fmt <> "JPEG" -> fmt <> "TIFF" ->
  add_gps_to_image C path lat lon overwrite w =
  (Raise (ValueError (UnsupportedFormat fmt)),
   {| files := files w; trace := trace w ++ [EvOpen path] |}).
Proof.
  intros Hf Ho Hj Ht. apply (run_unsupported C w path data fmt ex); try assumption.
  apply String.eqb_neq in Hj, Ht. rewrite Hj, Ht. reflexivity.
Qed.

(** C3.  When the loaded tag tree's ["GPS"] group has at least one entry
    and [overwrite] is false, [add_gps_to_image] raises the
    GPS-already-present [RuntimeError]; nothing is dumped or inserted and
    the files are unchanged. *)
Theorem gps_already_present
    (w : world) (path data fmt : string) (ex : option string)
    (d : gmap string group) (evs : list event) (g : gmap Z tag_value)
    (tag : Z) (v : tag_value) (lat lon : float) :
  files w !! path = Some data ->
  image_open C data = Some (fmt, ex) ->
  fmt = "JPEG" \/ fmt = "TIFF" ->
  loads C ex d evs ->
  d !! "GPS" = Some (Ifd g) -> g !! tag = Some v ->
  add_gps_to_image C path lat lon false w =
  (Raise RuntimeError,
   {| files := files w; trace := trace w ++ EvOpen path :: evs |}) /\
  Forall (fun e => exists blob, e = EvLoad blob) evs.
Proof.
  intros Hf Ho Hfmt Hl Hg Hv.
  assert (Hne : g <> ∅) by (intros ->; rewrite lookup_empty in Hv; discriminate).
  rewrite (run_after_load C _ _ _ _ _ _ _ lat lon false Hf Ho Hfmt Hl).
  rewrite Hg, truthy_ifd, bool_decide_eq_false_2 by assumption.
  split; [reflexivity|]. apply (loads_only_load _ _ _ _ Hl).
Qed.

(** C8.  A ["GPS"] group that is present but empty does not trigger the
    overwrite guard: with [overwrite] false the run behaves as with
    [overwrite] true, dumps the merged tree and, when the dump succeeds,
    inserts it. *)
Theorem empty_gps_not_guarded
    (w : world) (path data fmt : string) (ex : option string)
    (d : gmap string group) (evs : list event) (g : gmap Z tag_value)
    (lat lon : float) :
  files w !! path = Some data ->
  image_open C data = Some (fmt, ex) ->
  fmt = "JPEG" \/ fmt = "TIFF" ->
  loads C ex d evs ->
  d !! "GPS" = Some (Ifd ∅) ->
  gps_ifd_of lat lon = Ok g ->
  add_gps_to_image C path lat lon false w =
  add_gps_to_image C path lat lon true w /\
  exists r w',
    add_gps_to_image C path lat lon false w = (r, w') /\
    r <> Raise RuntimeError /\
    exists rest,
      trace w' = trace w ++ EvOpen path :: evs ++
                 EvDump (<["GPS" := Ifd g]> d) :: rest /\
      forall exif_bytes,
        piexif_dump C (<["GPS" := Ifd g]> d) = Some exif_bytes ->
        files w' = <[path := (piexif_insert C exif_bytes data).1]> (files w) /\
        exists rest', rest = EvInsert exif_bytes path :: rest'.
Proof.
  intros Hf Ho Hfmt Hl Hg Hgps.
  rewrite !(run_after_load C _ _ _ _ _ _ _ lat lon _ Hf Ho Hfmt Hl).
  rewrite Hg, Hgps. cbv zeta. cbn [truthy_get truthy_group negb andb trace].
  rewrite map_size_empty. cbn [Nat.eqb negb andb].
  split; [reflexivity|].
  destruct (piexif_dump C (<["GPS" := Ifd g]> d)) as [bytes |] eqn:Hd.
  - destruct (piexif_insert C bytes data) as [data' [|]] eqn:Hi;
      do 2 eexists; (split; [reflexivity|]); (split; [discriminate|]);
      eexists; (split; [cbn [trace]; rewrite <- app_assoc; reflexivity|]);
      intros b Hb; injection Hb as <-; rewrite Hi; split;
      try reflexivity; eexists; reflexivity.
  - do 2 eexists. split; [reflexivity|]. split; [discriminate|].
    eexists. split; [cbn [trace]; rewrite <- app_assoc; reflexivity|].
    intros b Hb. discriminate.
Qed.

(** C4.  After a successful run on an image with a pre-existing EXIF tag
    tree, the tree handed to the serializer is the loaded one with only
    the ["GPS"] group replaced: ["0th"], ["Exif"], ["1st"], the thumbnail
    and every other group, hence every non-GPS tag value, are as loaded;
    its serialization is what is inserted into the file. *)
Theorem non_gps_groups_preserved
    (w w' : world) (path data fmt blob : string) (d : gmap string group)
    (lat lon : float) (overwrite : bool) :
  add_gps_to_image C path lat lon overwrite w = (Ok tt, w') ->
  files w !! path = Some data ->
  image_open C data = Some (fmt, Some blob) ->
  truthy_bytes blob = true ->
  piexif_load C blob = Some d ->
  exists g exif_bytes,
    let merged := <["GPS" := Ifd g]> d in
    gps_ifd_of lat lon = Ok g /\
    piexif_dump C merged = Some exif_bytes /\
    trace w' = trace w ++ [EvOpen path; EvLoad blob; EvDump merged;
                           EvInsert exif_bytes path; EvPrint path] /\
    files w' = <[path := (piexif_insert C exif_bytes data).1]> (files w) /\
    (forall k, k <> "GPS" -> merged !! k = d !! k) /\
    (forall k tags tag v,
       k <> "GPS" -> d !! k = Some (Ifd tags) -> tags !! tag = Some v ->
       exists tags', merged !! k = Some (Ifd tags') /\ tags' !! tag = Some v) /\
    merged !! "0th" = d !! "0th" /\ merged !! "Exif" = d !! "Exif" /\
    merged !! "1st" = d !! "1st" /\ merged !! "thumbnail" = d !! "thumbnail".
Proof.
  intros Hrun Hf Ho Ht Hld.
  destruct (run_ok_inv C _ _ _ _ _ _ Hrun)
    as (data' & fmt' & ex & d' & evs & g & bytes &
        Hf' & Ho' & _ & Hl & _ & Hg & Hd & ->).
  rewrite Hf in Hf'. injection Hf' as <-.
  rewrite Ho in Ho'. injection Ho' as <- <-.
  inversion Hl as [blob' d'' Ht' Hld' | blob' Ht' |]; subst; [|congruence].
  rewrite Hld in Hld'. injection Hld' as <-.
  exists g, bytes. cbv zeta.
  repeat split; try assumption; try reflexivity;
    try (apply lookup_insert_ne; discriminate).
  - intros k Hk. apply lookup_insert_ne. congruence.
  - intros k tags tag v Hk Hdk Hv. exists tags.
    rewrite lookup_insert_ne by congruence. split; assumption.
Qed.

(** C7.  Two successive successful runs on the same file with
    [overwrite] true and the same coordinates hand the serializer the same
    four-entry GPS group. *)
Theorem overwrite_twice_same_gps
    (w0 w1 w2 : world) (path : string) (lat lon : float) :
  add_gps_to_image C path lat lon true w0 = (Ok tt, w1) ->
  add_gps_to_image C path lat lon true w1 = (Ok tt, w2) ->
  exists g,
    gps_ifd_of lat lon = Ok g /\ size g = 4%nat /\
    written_gps (trace w1) = written_gps (trace w0) ++ [Some (Ifd g)] /\
    written_gps (trace w2) = written_gps (trace w1) ++ [Some (Ifd g)].
Proof.
  intros H1 H2.
  destruct (run_ok_written _ _ _ _ _ _ H1) as (g & Hg & Hw1).
  destruct (run_ok_written _ _ _ _ _ _ H2) as (g' & Hg' & Hw2).
  rewrite Hg in Hg'. injection Hg' as <-.
  exists g. repeat split; try assumption.
  destruct (gps_ifd_of_entries _ _ _ Hg) as (? & ? & _ & _ & Hs & _). exact Hs.
Qed.

End MergerTheorems.

Lemma in_range_finite (x lo hi : float) :
  is_finite lo = true -> is_finite hi = true ->
  fle lo x = true -> fle x hi = true -> is_finite x = true.
Proof.
  destruct x as [| [|] | |]; try reflexivity;
    destruct lo as [| | | [|] ? ?], hi as [| | | [|] ? ?]; cbn;
    intros; discriminate.
Qed.

(** C5.  For [lat] in [[-90, 90]] and [lon] in [[-180, 180]] the GPS IFD
    has exactly the four entries GPSLatitudeRef, GPSLatitude,
    GPSLongitudeRef and GPSLongitude, holding ['N'] or ['S'] by the sign
    test [lat >= 0], [to_deg (abs lat)], ['E'] or ['W'] by [lon >= 0] and
    [to_deg (abs lon)]; each Ref is a one-byte string, [0.0] maps to
    ['N'] and ['E'], and this IFD is the GPS group of every tree a
    successful run serializes. *)
Theorem gps_ifd_entries (lat lon : float) :
  valid lat = true -> valid lon = true ->
  fle (Z2F (-90)) lat = true -> fle lat (Z2F 90) = true ->
  fle (Z2F (-180)) lon = true -> fle lon (Z2F 180) = true ->
  exists lat_dms lon_dms g,
    to_deg (fabs lat) = Ok lat_dms /\ to_deg (fabs lon) = Ok lon_dms /\
    gps_ifd_of lat lon = Ok g /\
    size g = 4%nat /\
    g !! GPSIFD.GPSLatitudeRef =
      Some (TagBytes (if fle (Z2F 0) lat then "N" else "S")) /\
    g !! GPSIFD.GPSLatitude = Some (dms_tag lat_dms) /\
    g !! GPSIFD.GPSLongitudeRef =
      Some (TagBytes (if fle (Z2F 0) lon then "E" else "W")) /\
    g !! GPSIFD.GPSLongitude = Some (dms_tag lon_dms) /\
    (forall k, is_Some (g !! k) ->
               k = GPSIFD.GPSLatitudeRef \/ k = GPSIFD.GPSLatitude \/
               k = GPSIFD.GPSLongitudeRef \/ k = GPSIFD.GPSLongitude) /\
    String.length (if fle (Z2F 0) lat then "N" else "S") = 1%nat /\
    String.length (if fle (Z2F 0) lon then "E" else "W") = 1%nat /\
    gps_ifd_of fzero fzero =
      Ok (<[GPSIFD.GPSLatitudeRef := TagBytes "N"]>
          (<[GPSIFD.GPSLatitude := TagRationals [(0, 1); (0, 1); (0, 10000)]]>
          (<[GPSIFD.GPSLongitudeRef := TagBytes "E"]>
          (<[GPSIFD.GPSLongitude := TagRationals [(0, 1); (0, 1); (0, 10000)]]>
           ∅)))) /\
    (forall (C : collaborators) (w w' : world) (path : string)
            (overwrite : bool),
        add_gps_to_image C path lat lon overwrite w = (Ok tt, w') ->
        written_gps (trace w') = written_gps (trace w) ++ [Some (Ifd g)]).
Proof.
  intros Hvlat Hvlon Hlat1 Hlat2 Hlon1 Hlon2.
  pose proof (in_range_finite lat (Z2F (-90)) (Z2F 90) eq_refl eq_refl Hlat1 Hlat2) as Hflat.
  pose proof (in_range_finite lon (Z2F (-180)) (Z2F 180) eq_refl eq_refl Hlon1 Hlon2) as Hflon.
  pose proof (to_deg_good _ (fabs_good lat Hvlat Hflat)) as Hd1.
  pose proof (to_deg_good _ (fabs_good lon Hvlon Hflon)) as Hd2.
  destruct (to_deg_scaled (scaled (fabs lat))) as [[d1 m1] s1].
  destruct (to_deg_scaled (scaled (fabs lon))) as [[d2 m2] s2].
  assert (Hg : exists g, gps_ifd_of lat lon = Ok g).
  { unfold gps_ifd_of. rewrite Hd1, Hd2. cbn [mbind result_bind].
    eexists. reflexivity. }
  destruct Hg as [g Hg].
  destruct (gps_ifd_of_entries lat lon g Hg)
    as (t1 & t2 & E1 & E2 & Hs & H1 & H2 & H3 & H4 & Hdom).
  exists t1, t2, g.
  repeat split; try assumption.
  - destruct (fle (Z2F 0) lat); reflexivity.
  - destruct (fle (Z2F 0) lon); reflexivity.
  - intros C w w' path overwrite Hrun.
    destruct (run_ok_written C _ _ _ _ _ _ Hrun) as (g' & Hg' & Hw).
    rewrite Hg in Hg'. injection Hg' as <-. exact Hw.
Qed.

(** C10.  The GPS group a run hands to the serializer depends only on
    [(lat, lon)]: two runs with the same coordinates that reach the dump
    (any files, any prior EXIF, any overwrite flags, any collaborators)
    dump the same GPS group. *)
Theorem gps_group_noninterference
    (C1 C2 : collaborators) (w1 w1' w2 w2' : world) (r1 r2 : result unit)
    (path1 path2 : string) (overwrite1 overwrite2 : bool)
    (lat lon : float) (g1 g2 : option group) :
  add_gps_to_image C1 path1 lat lon overwrite1 w1 = (r1, w1') ->
  add_gps_to_image C2 path2 lat lon overwrite2 w2 = (r2, w2') ->
  written_gps (trace w1') = written_gps (trace w1) ++ [g1] ->
  written_gps (trace w2') = written_gps (trace w2) ++ [g2] ->
  g1 = g2 /\ exists g, gps_ifd_of lat lon = Ok g /\ g1 = Some (Ifd g).
Proof.
  intros H1 H2 Hw1 Hw2.
  assert (Hone : forall C w w' r path ow go,
             add_gps_to_image C path lat lon ow w = (r, w') ->
             written_gps (trace w') = written_gps (trace w) ++ [go] ->
             exists g, gps_ifd_of lat lon = Ok g /\ go = Some (Ifd g)).
  { intros C w w' r path ow go Hrun Hw.
    destruct (run_written C _ _ _ _ _ _ _ Hrun) as [Hsame | (g & Hg & Happ)].
    - rewrite Hsame in Hw. apply (f_equal length) in Hw.
      rewrite length_app in Hw. cbn in Hw. lia.
    - rewrite Happ in Hw. apply app_inv_head in Hw.
      exists g. split; [assumption | congruence]. }
  destruct (Hone _ _ _ _ _ _ _ H1 Hw1) as (g & Hg & ->).
  destruct (Hone _ _ _ _ _ _ _ H2 Hw2) as (g' & Hg' & ->).
  split; [congruence|]. exists g. split; [assumption | reflexivity].
Qed.

(** ** Negative input: [to_deg] is odd *)

Lemma binary_round_aux_negb (s : bool) (mx ex : Z) (l : location) :
  binary_round_aux prec emax (negb s) mx ex l =
  SFopp (binary_round_aux prec emax s mx ex l).
Proof.
  unfold binary_round_aux.
  destruct (shr_fexp prec emax mx ex l) as [mrs' e'].
  destruct (shr_fexp prec emax _ e' loc_Exact) as [mrs'' e''].
  destruct (shr_m mrs'') as [| p | p]; try reflexivity.
  destruct (e'' <=? emax - prec); reflexivity.
Qed.

Lemma binary_normalize_opp (M E : Z) :
  negated (binary_normalize prec emax M E false)
          (binary_normalize prec emax (- M) E false).
Proof.
  destruct M as [| p | p].
  - right. split; reflexivity.
  - left. change (- Zpos p) with (Zneg p).
    unfold binary_normalize, binary_round.
    destruct (shl_align p E _) as [mz ez].
    apply (binary_round_aux_negb false).
  - left. change (- Zneg p) with (Zpos p).
    unfold binary_normalize, binary_round.
    destruct (shl_align p E _) as [mz ez].
    pose proof (binary_round_aux_negb false (Zpos mz) ez loc_Exact) as H.
    cbn [negb] in H. rewrite H. unfold fneg.
    destruct (binary_round_aux prec emax false (Zpos mz) ez loc_Exact)
      as [[|] | [|] | | [|] ? ?]; reflexivity.
Qed.

Lemma negated_fneg (x : float) : negated x (fneg x).
Proof. left. reflexivity. Qed.

Lemma py_int_negated (x y : float) :
  negated x y -> py_int y = map_result Z.opp (py_int x).
Proof.
  intros [-> | [Hx Hy]].
  - destruct x as [s | s | | [|] m e]; cbn; try reflexivity; f_equal; lia.
  - destruct x, y; try discriminate. reflexivity.
Qed.

Lemma py_round_negated (x y : float) :
  negated x y -> py_round y = map_result Z.opp (py_round x).
Proof.
  intros [-> | [Hx Hy]].
  - destruct x as [s | s | | [|] m e]; cbn; try reflexivity; f_equal; lia.
  - destruct x, y; try discriminate. reflexivity.
Qed.

Lemma float_of_int_negated (z : Z) :
  negated_result (float_of_int z) (float_of_int (- z)).
Proof.
  unfold float_of_int, Z2F.
  destruct (binary_normalize_opp z 0) as [-> | [Hx Hy]].
  - destruct (binary_normalize prec emax z 0 false) as [s | s | | s m e];
      cbn; auto using negated_fneg.
  - destruct (binary_normalize prec emax z 0 false),
      (binary_normalize prec emax (- z) 0 false); try discriminate.
    right. split; reflexivity.
Qed.

Lemma fmul_negated (x y : float) (mc : positive) (ec : Z) :
  negated x y ->
  negated (fmul x (S754_finite false mc ec)) (fmul y (S754_finite false mc ec)).
Proof.
  intros [-> | [Hx Hy]].
  - left. unfold fmul, fneg.
    destruct x as [[|] | [|] | | [|] m e]; try reflexivity; cbn [SFopp SFmul negb xorb].
    + pose proof (binary_round_aux_negb false (Zpos (m * mc)) (e + ec) loc_Exact) as H.
      cbn [negb] in H. rewrite H.
      destruct (binary_round_aux prec emax false _ _ _) as [[|] | [|] | | [|] ? ?];
        reflexivity.
    + apply (binary_round_aux_negb false).
  - destruct x, y; try discriminate. right. split; reflexivity.
Qed.

Lemma fsub_finite_negated (sx sa : bool) (mx ma : positive) (ex ea : Z) :
  negated (fsub (S754_finite sx mx ex) (S754_finite sa ma ea))
          (fsub (S754_finite (negb sx) mx ex) (S754_finite (negb sa) ma ea)).
Proof.
  unfold fsub. cbn [SFsub].
  set (X := Zpos (shl_align mx ex (Z.min ex ea)).1).
  set (A := Zpos (shl_align ma ea (Z.min ex ea)).1).
  replace (cond_Zopp (negb sx) X - cond_Zopp (negb sa) A)
    with (- (cond_Zopp sx X - cond_Zopp sa A))
    by (destruct sx, sa; cbn [cond_Zopp negb]; lia).
  apply binary_normalize_opp.
Qed.

Lemma fsub_negated (x y a b : float) :
  negated x y -> negated a b -> negated (fsub x a) (fsub y b).
Proof.
  intros Hx Ha.
  destruct x as [sx | sx | | sx mx ex], a as [sa | sa | | sa ma ea];
    destruct Hx as [-> | [Hx Hy]]; try discriminate;
    destruct Ha as [-> | [Ha Hb]]; try discriminate;
    try (destruct y; try discriminate);
    try (destruct b; try discriminate);
    try apply fsub_finite_negated;
    repeat match goal with s : bool |- _ => destruct s end;
    try (left; reflexivity); try (right; split; reflexivity).
Qed.

Lemma fsub_int_negated (x y : float) (z : Z) :
  negated x y -> negated_result (fsub_int x z) (fsub_int y (- z)).
Proof.
  intros H. unfold fsub_int.
  pose proof (float_of_int_negated z) as Hz.
  destruct (float_of_int z) as [a | e], (float_of_int (- z)) as [b | e'];
    cbn in *; try contradiction; [apply fsub_negated | ]; assumption.
Qed.

Lemma fmul_int_negated (x y : float) (c : Z) (mc : positive) (ec : Z) :
  float_of_int c = Ok (S754_finite false mc ec) ->
  negated x y -> negated_result (fmul_int x c) (fmul_int y c).
Proof.
  intros Hc H. unfold fmul_int. rewrite Hc. cbn.
  apply fmul_negated. assumption.
Qed.

Lemma to_deg_negated (x y : float) :
  negated x y -> to_deg y = map_result neg_dms (to_deg x).
Proof.
  intros H. unfold to_deg.
  rewrite (py_int_negated x y H).
  destruct (py_int x) as [deg | e]; [|reflexivity].
  cbn [map_result mbind result_bind].
  pose proof (fsub_int_negated x y deg H) as H1.
  destruct (fsub_int x deg) as [frac | e], (fsub_int y (- deg)) as [frac' | e'];
    cbn in H1; try contradiction; [|subst; reflexivity].
  cbn [mbind result_bind].
  pose proof (fmul_int_negated frac frac' 60 _ _ float_of_int_60 H1) as H2.
  destruct (fmul_int frac 60) as [mf | e], (fmul_int frac' 60) as [mf' | e'];
    cbn in H2; try contradiction; [|subst; reflexivity].
  cbn [mbind result_bind].
  rewrite (py_int_negated mf mf' H2).
  destruct (py_int mf) as [minutes | e]; [|reflexivity].
  cbn [map_result mbind result_bind].
  pose proof (fsub_int_negated mf mf' minutes H2) as H3.
  destruct (fsub_int mf minutes) as [rest | e],
    (fsub_int mf' (- minutes)) as [rest' | e'];
    cbn in H3; try contradiction; [|subst; reflexivity].
  cbn [mbind result_bind].
  pose proof (fmul_int_negated rest rest' 60 _ _ float_of_int_60 H3) as H4.
  destruct (fmul_int rest 60) as [s1 | e], (fmul_int rest' 60) as [s1' | e'];
    cbn in H4; try contradiction; [|subst; reflexivity].
  cbn [mbind result_bind].
  pose proof (fmul_int_negated s1 s1' 10000 _ _ float_of_int_10000 H4) as H5.
  destruct (fmul_int s1 10000) as [s2 | e], (fmul_int s1' 10000) as [s2' | e'];
    cbn in H5; try contradiction; [|subst; reflexivity].
  cbn [mbind result_bind].
  rewrite (py_round_negated s2 s2' H5).
  destruct (py_round s2) as [sec | e]; reflexivity.
Qed.

(** X2.  [to_deg] is odd: on [- v] it returns the triple of [v] with the
    three numerators negated (and raises what it raises on [v]); so a
    negative finite input yields numerators that are all [<= 0]. *)
Theorem to_deg_odd (v : float) :
  to_deg (fneg v) = map_result neg_dms (to_deg v).
Proof. apply to_deg_negated, negated_fneg. Qed.

Lemma valid_finite_cases (v : float) :
  valid v = true -> is_finite v = true ->
  v = S754_zero true \/ good v \/ (exists x, good x /\ v = fneg x).
Proof.
  destruct v as [[|] | [|] | | [|] m e]; cbn; intros Hv Hf;
    try discriminate; auto.
  right. right. exists (S754_finite false m e). split; [exact Hv | reflexivity].
Qed.

Lemma to_deg_finite_ok (v : float) :
  valid v = true -> is_finite v = true -> exists t, to_deg v = Ok t.
Proof.
  intros Hv Hf.
  destruct (valid_finite_cases v Hv Hf) as [-> | [Hg | (x & Hg & ->)]].
  - eexists. reflexivity.
  - rewrite (to_deg_good v Hg).
    destruct (to_deg_scaled (scaled v)) as [[d m] s]. eexists. reflexivity.
  - rewrite (to_deg_negated x (fneg x) (negated_fneg x)), (to_deg_good x Hg).
    destruct (to_deg_scaled (scaled x)) as [[d m] s]. eexists. reflexivity.
Qed.

(** X1.  On a well-formed float [to_deg] returns exactly when the input
    is finite (of either sign); it raises [ValueError] on a NaN and
    [OverflowError] on an infinity. *)
Theorem to_deg_raises_iff_not_finite (v : float) :
  valid v = true ->
  ((exists t, to_deg v = Ok t) <-> is_finite v = true) /\
  (v = S754_nan -> to_deg v = Raise (ValueError FloatNaNToInteger)) /\
  (forall s, v = S754_infinity s -> to_deg v = Raise OverflowError).
Proof.
  intros Hv. split; [split|split].
  - intros [t Ht]. destruct v; try reflexivity; discriminate.
  - apply to_deg_finite_ok. assumption.
  - intros ->. reflexivity.
  - intros s ->. reflexivity.
Qed.

(** ** Order, whole degrees and sharper bounds *)

Lemma scaled_lt_by_exponent (m1 m2 : positive) (e1 e2 : Z) :
  bounded prec emax m1 e1 = true -> bounded prec emax m2 e2 = true ->
  e1 < e2 -> Zpos m1 * 2 ^ (e1 + 1074) < Zpos m2 * 2 ^ (e2 + 1074).
Proof.
  intros H1 H2 He.
  destruct (good_inv m1 e1 H1) as (He1 & Hm1 & _).
  destruct (good_inv m2 e2 H2) as (He2 & _ & Hm2).
  specialize (Hm2 ltac:(lia)).
  pose proof (pow2_pos (e1 + 1074) ltac:(lia)) as Hp.
  replace (e2 + 1074) with ((e2 - e1 - 1) + 1 + (e1 + 1074)) by lia.
  rewrite (pow2_split (e2 - e1 - 1 + 1) (e1 + 1074)) by lia.
  rewrite (pow2_split (e2 - e1 - 1) 1) by lia.
  pose proof (pow2_pos (e2 - e1 - 1) ltac:(lia)) as Hq.
  change (2 ^ 1) with 2. change (2 ^ 53) with (2 * 2 ^ 52) in Hm1.
  assert (Hq1 : 2 ^ 52 <= Zpos m2 * 2 ^ (e2 - e1 - 1)) by nia.
  replace (Zpos m2 * (2 ^ (e2 - e1 - 1) * 2 * 2 ^ (e1 + 1074)))
    with (Zpos m2 * 2 ^ (e2 - e1 - 1) * 2 * 2 ^ (e1 + 1074)) by ring.
  apply Z.mul_lt_mono_pos_r; [assumption | lia].
Qed.

(** On good floats the float comparison is the comparison of the scaled
    values. *)
Lemma good_compare (a b : float) :
  good a -> good b -> SFcompare a b = Some (scaled a ?= scaled b).
Proof.
  destruct a as [[|] | | | [|] ma ea], b as [[|] | | | [|] mb eb];
    cbn [good]; try tauto; intros Ha Hb; cbn [SFcompare scaled].
  - destruct (good_inv mb eb Hb) as (He & _).
    pose proof (pow2_pos (eb + 1074) ltac:(lia)).
    f_equal. symmetry. apply Z.compare_lt_iff. lia.
  - destruct (good_inv ma ea Ha) as (He & _).
    pose proof (pow2_pos (ea + 1074) ltac:(lia)).
    f_equal. symmetry. apply Z.compare_gt_iff. lia.
  - f_equal. destruct (Z.compare_spec ea eb) as [-> | Hlt | Hgt].
    + destruct (good_inv mb eb Hb) as (He & _).
      pose proof (pow2_pos (eb + 1074) ltac:(lia)).
      change (Pos.compare_cont Eq ma mb) with (Pos.compare ma mb).
      rewrite Pos2Z.inj_compare.
      apply Zmult_compare_compat_r. lia.
    + symmetry. apply Z.compare_lt_iff.
      apply scaled_lt_by_exponent; assumption.
    + symmetry. apply Z.compare_gt_iff.
      apply scaled_lt_by_exponent; assumption.
Qed.

Lemma good_fle (a b : float) :
  good a -> good b -> fle a b = true -> scaled a <= scaled b.
Proof.
  intros Ha Hb. unfold fle, SFleb. rewrite (good_compare a b Ha Hb).
  destruct (Z.compare_spec (scaled a) (scaled b)); intros; try discriminate; lia.
Qed.

Lemma Z2F_scaled (k : Z) :
  0 <= k < 2 ^ 53 -> good (Z2F k) /\ scaled (Z2F k) = k * U.
Proof.
  intros Hk.
  pose proof (representable_const k Hk) as Hr.
  pose proof (const_below_overflow k Hk) as Ho.
  assert (HU : 0 < U) by (apply pow2_pos; lia).
  pose proof (float_of_int_scaled k ltac:(lia)) as Hf.
  rewrite (rnd_representable_id _ Hr) in Hf. specialize (Hf Ho).
  assert (HZ : Z2F k = of_scaled (k * U)).
  { unfold float_of_int in Hf. destruct (Z2F k); congruence. }
  rewrite HZ. apply of_scaled_good; [nia | assumption | assumption].
Qed.

Lemma to_deg_scaled_whole (k : Z) :
  0 <= k -> to_deg_scaled (k * U) = (k, 0, 0).
Proof.
  intros Hk. unfold to_deg_scaled.
  assert (HU : U <> 0) by (apply Z.pow_nonzero; lia).
  rewrite Z.mod_mul, Z.div_mul by assumption.
  reflexivity.
Qed.

(** X3.  Whole degrees are encoded exactly: for every integer
    [0 <= k < 2 ^ 53], [to_deg (float k) = ((k,1),(0,1),(0,10000))]. *)
Theorem to_deg_whole_degrees (k : Z) :
  0 <= k < 2 ^ 53 -> to_deg (Z2F k) = Ok ((k, 1), (0, 1), (0, 10000)).
Proof.
  intros Hk. destruct (Z2F_scaled k Hk) as [Hg Hs].
  rewrite (to_deg_good _ Hg), Hs, to_deg_scaled_whole by lia. reflexivity.
Qed.

Lemma to_deg_scaled_within (X B : Z) :
  0 <= X <= B * U -> representable X ->
  let '(d, m, s) := to_deg_scaled X in
  0 <= d <= B /\ 0 <= m <= 59 /\ 0 <= s <= 600000 /\
  (d = B -> m = 0 /\ s = 0).
Proof.
  intros [HX0 HXB] HR.
  assert (HU : 0 < U) by (apply pow2_pos; lia).
  pose proof (to_deg_scaled_bounds X HX0 HR) as Hb.
  pose proof (Z.div_mod X U ltac:(lia)) as Hdm.
  pose proof (Z.mod_pos_bound X U HU) as Hmod.
  assert (Hd : X / U <= B) by (apply Z.div_le_upper_bound; lia).
  destruct (Z.eq_dec (X / U) B) as [E | E].
  - assert (HXe : X = B * U) by nia.
    rewrite HXe, to_deg_scaled_whole by nia. repeat split; lia.
  - unfold to_deg_scaled in *. cbv zeta in *.
    repeat split; try tauto; try lia; intros; contradiction.
Qed.

Lemma inject_Z_nonneg (z : Z) : 0 <= z -> (0 <= inject_Z z)%Q.
Proof.
  intros H. change 0%Q with (inject_Z 0). rewrite <- Zle_Qle. assumption.
Qed.

(** X4.  For a non-negative [v] not above a whole number of degrees [B]
    (90 for a latitude, 180 for a longitude), the degrees numerator is
    at most [B], minutes and seconds are zero when it equals [B], and the
    triple read back as degrees lies in [[0, B]] even when its seconds
    have been rounded up to 60. *)
Theorem to_deg_within_bound (v : float) (B : Z) :
  0 <= B < 2 ^ 53 ->
  valid v = true -> fle fzero v = true -> fle v (Z2F B) = true ->
  exists d m s : Z,
    to_deg v = Ok ((d, 1), (m, 1), (s, 10000)) /\
    0 <= d <= B /\ 0 <= m <= 59 /\ 0 <= s <= 600000 /\
    (d = B -> m = 0 /\ s = 0) /\
    (0 <= dms_to_degrees ((d, 1%Z), (m, 1%Z), (s, 10000%Z)) <= inject_Z B)%Q.
Proof.
  intros HB Hv Hle HvB.
  destruct (Z2F_scaled B HB) as [HgB HsB].
  assert (Hf : is_finite v = true).
  { apply (in_range_finite v fzero (Z2F B)); try assumption; try reflexivity.
    apply good_finite. assumption. }
  assert (Hex : exists d m s : Z,
             to_deg v = Ok ((d, 1), (m, 1), (s, 10000)) /\
             0 <= d <= B /\ 0 <= m <= 59 /\ 0 <= s <= 600000 /\
             (d = B -> m = 0 /\ s = 0)).
  { destruct (nonneg_cases v Hv Hf Hle) as [-> | Hg].
    - exists 0, 0, 0. repeat split; lia.
    - rewrite (to_deg_good v Hg).
      pose proof (good_fle v (Z2F B) Hg HgB HvB) as HX. rewrite HsB in HX.
      pose proof (to_deg_scaled_within (scaled v) B
                    (conj (scaled_nonneg v) HX) (good_representable v Hg)) as Hw.
      destruct (to_deg_scaled (scaled v)) as [[d m] s].
      exists d, m, s. split; [reflexivity | exact Hw]. }
  destruct Hex as (d & m & s & Ht & Hd & Hm & Hs & Htop).
  exists d, m, s. repeat split; try assumption; try lia; try (apply Htop; assumption).
  - cbn [dms_to_degrees].
    assert (H0 : (0 <= inject_Z d)%Q) by (apply inject_Z_nonneg; lia).
    assert (H1 : (0 <= inject_Z m)%Q) by (apply inject_Z_nonneg; lia).
    assert (H2 : (0 <= inject_Z s)%Q) by (apply inject_Z_nonneg; lia).
    change (inject_Z 1) with 1%Q. change (inject_Z 10000) with 10000%Q.
    remember (inject_Z d) as qd. remember (inject_Z m) as qm.
    remember (inject_Z s) as qs.
    setoid_replace (qd / 1 + qm / 1 / 60 + qs / 10000 / 3600)%Q
      with ((36000000 * qd + 600000 * qm + qs) / 36000000)%Q
      using relation Qeq by field.
    apply Qle_shift_div_l; [reflexivity|]. lra.
  - cbn [dms_to_degrees].
    assert (HZ : 36000000 * d + 600000 * m + s <= 36000000 * B).
    { destruct (Z.eq_dec d B) as [E | E]; [destruct (Htop E); lia | lia]. }
    rewrite Zle_Qle in HZ.
    rewrite !inject_Z_plus, !inject_Z_mult in HZ.
    change (inject_Z 1) with 1%Q. change (inject_Z 10000) with 10000%Q.
    change (inject_Z 36000000) with 36000000%Q in HZ.
    change (inject_Z 600000) with 600000%Q in HZ.
    remember (inject_Z d) as qd. remember (inject_Z m) as qm.
    remember (inject_Z s) as qs. remember (inject_Z B) as qB.
    setoid_replace (qd / 1 + qm / 1 / 60 + qs / 10000 / 3600)%Q
      with ((36000000 * qd + 600000 * qm + qs) / 36000000)%Q
      using relation Qeq by field.
    apply Qle_shift_div_r; [reflexivity|]. lra.
Qed.

Lemma to_deg_scaled_error_sharp (X : Z) :
  0 <= X ->
  let '(d, m, s) := to_deg_scaled X in
  let E := 36000000 * U * d + 600000 * U * m + s * U - 36000000 * X in
  - (50000001 * U) <= 100000000 * E <= 50000001 * U.
Proof.
  intros HX. unfold to_deg_scaled.
  destruct (to_deg_scaled_ranges X) as (HF & HMF & HG & HS1 & HS2).
  cbv zeta in HF, HMF, HG, HS1, HS2. cbv zeta.
  set (F := X mod U) in *. set (MF := rnd (60 * F)) in *.
  set (G := MF mod U) in *. set (S1 := rnd (60 * G)) in *.
  set (S2 := rnd (10000 * S1)) in *.
  assert (HU : 0 < U) by (apply pow2_pos; lia).
  pose proof (Z.div_mod X U ltac:(lia)) as HdX. fold F in HdX.
  pose proof (Z.div_mod MF U ltac:(lia)) as HdM. fold G in HdM.
  set (W := 2 ^ 1026).
  assert (HW : 0 < W) by (apply pow2_pos; lia).
  assert (HUW : U = 2 ^ 48 * W) by reflexivity.
  assert (He1 : - (2 * W) <= 2 * (MF - 60 * F) <= 2 * W).
  { replace (2 * W) with (2 ^ 1027) by reflexivity.
    apply rnd_error; [lia|]. change (2 ^ (53 + 1027)) with (64 * U). lia. }
  assert (He2 : - (2 * W) <= 2 * (S1 - 60 * G) <= 2 * W).
  { replace (2 * W) with (2 ^ 1027) by reflexivity.
    apply rnd_error; [lia|]. change (2 ^ (53 + 1027)) with (64 * U). lia. }
  assert (He3 : - (2 ^ 15 * W) <= 2 * (S2 - 10000 * S1) <= 2 ^ 15 * W).
  { replace (2 ^ 15 * W) with (2 ^ 1041) by reflexivity.
    apply rnd_error; [lia|]. change (2 ^ (53 + 1041)) with (2 ^ 20 * U). lia. }
  pose proof (rne_div_bounds S2 U HU) as He4.
  remember (rne_div S2 U) as s eqn:Es. clear Es.
  remember (X / U) as d eqn:Ed. clear Ed.
  remember (MF / U) as m eqn:Em. clear Em.
  clearbody F MF G S1 S2 W. lia.
Qed.

(** X5.  For every non-negative finite [v], of any magnitude, the triple
    read back as degrees is within 0.50000001 ten-thousandths of a second
    of [v]: the seconds numerator is the correctly rounded one up to
    [10 ^ -8] of its unit. *)
Theorem to_deg_half_unit_accuracy (v : float) :
  valid v = true -> is_finite v = true -> fle fzero v = true ->
  exists t : dms,
    to_deg v = Ok t /\
    (Qabs (dms_to_degrees t - SF2Q v)
     <= (50000001 # 100000000) * ((1 / 10000) / 3600))%Q.
Proof.
  intros Hv Hf Hle.
  destruct (nonneg_cases v Hv Hf Hle) as [-> | Hg].
  { eexists. split; [reflexivity|]. vm_compute. discriminate. }
  rewrite (to_deg_good v Hg).
  pose proof (to_deg_scaled_error_sharp (scaled v) (scaled_nonneg v)) as He.
  destruct (to_deg_scaled (scaled v)) as [[d m] s].
  eexists. split; [reflexivity|].
  pose proof U_pos_Q as Hu.
  pose proof (SF2Q_scaled v Hg) as Hx.
  cbv zeta in He. destruct He as [Hlo Hhi].
  rewrite Zle_Qle in Hlo, Hhi.
  rewrite inject_Z_opp in Hlo.
  unfold Z.sub in Hlo, Hhi.
  rewrite !inject_Z_mult, !inject_Z_plus, inject_Z_opp, !inject_Z_mult, <- Hx
    in Hlo, Hhi.
  cbn [dms_to_degrees].
  remember (SF2Q v) as x eqn:Ex. clear Ex Hx.
  remember (inject_Z U) as u eqn:Eu. clear Eu.
  remember (inject_Z d) as qd. remember (inject_Z m) as qm.
  remember (inject_Z s) as qs.
  change (inject_Z 1) with 1%Q. change (inject_Z 10000) with 10000%Q.
  change (inject_Z 36000000) with 36000000%Q in Hlo, Hhi.
  change (inject_Z 600000) with 600000%Q in Hlo, Hhi.
  change (inject_Z 100000000) with 100000000%Q in Hlo, Hhi.
  change (inject_Z 50000001) with 50000001%Q in Hlo, Hhi.
  apply Qabs_Qle_condition. split.
  - apply (Qmult_le_r _ _ u Hu).
    setoid_replace ((qd / 1 + qm / 1 / 60 + qs / 10000 / 3600 - x) * u)%Q
      with ((36000000 * u * qd + 600000 * u * qm + qs * u
             + - (36000000 * (x * u))) / 36000000)%Q
      using relation Qeq by field.
    apply Qle_shift_div_l; [reflexivity|].
    setoid_replace (- ((50000001 # 100000000) * (1 / 10000 / 3600)) * u * 36000000)%Q
      with (- (50000001 * u) / 100000000)%Q using relation Qeq by field.
    apply Qle_shift_div_r; [reflexivity|]. lra.
  - apply (Qmult_le_r _ _ u Hu).
    setoid_replace ((qd / 1 + qm / 1 / 60 + qs / 10000 / 3600 - x) * u)%Q
      with ((36000000 * u * qd + 600000 * u * qm + qs * u
             + - (36000000 * (x * u))) / 36000000)%Q
      using relation Qeq by field.
    apply Qle_shift_div_r; [reflexivity|].
    setoid_replace ((50000001 # 100000000) * (1 / 10000 / 3600) * u * 36000000)%Q
      with ((50000001 * u) / 100000000)%Q using relation Qeq by field.
    apply Qle_shift_div_l; [reflexivity|]. lra.
Qed.

Lemma rne_div_mono (a a' b : Z) :
  0 < b -> a <= a' -> rne_div a b <= rne_div a' b.
Proof.
  intros Hb Ha.
  destruct (Z.eq_dec a a') as [-> | Hne]; [lia|].
  pose proof (rne_div_bounds a b Hb) as H1.
  pose proof (rne_div_bounds a' b Hb) as H2.
  nia.
Qed.

Lemma rnd_mono (X Y : Z) : 0 <= X <= Y -> rnd X <= rnd Y.
Proof.
  intros [HX HXY].
  pose proof (ulp_exp_nonneg X) as HkX.
  pose proof (ulp_exp_nonneg Y) as HkY.
  assert (Hk : ulp_exp X <= ulp_exp Y).
  { unfold ulp_exp. pose proof (Z.log2_le_mono X Y HXY). lia. }
  destruct (Z.eq_dec (ulp_exp X) (ulp_exp Y)) as [E | E].
  - unfold rnd. rewrite E.
    pose proof (pow2_pos _ HkY) as Hp.
    pose proof (rne_div_mono X Y (2 ^ ulp_exp Y) Hp HXY).
    nia.
  - (* [X] lies in a lower binade: the power of two between them is
       representable *)
    assert (HYpos : 0 < Y).
    { destruct (Z.eq_dec Y 0) as [-> | ]; [|lia].
      assert (X = 0) by lia. subst. contradiction. }
    assert (HkYpos : 0 < ulp_exp Y) by lia.
    pose proof (log2_bounds Y HYpos) as [HloY _].
    assert (HLY : Z.log2 Y = 52 + ulp_exp Y) by (unfold ulp_exp in *; lia).
    assert (HXlt : X <= 2 ^ 52 * 2 ^ ulp_exp Y).
    { destruct (Z.eq_dec X 0) as [-> | HXn].
      - pose proof (pow2_pos _ HkY). lia.
      - pose proof (log2_bounds X ltac:(lia)) as [_ HhiX].
        rewrite <- pow2_split by lia.
        assert (2 ^ (Z.log2 X + 1) <= 2 ^ (52 + ulp_exp Y))
          by (apply Z.pow_le_mono_r; unfold ulp_exp in *; lia).
        lia. }
    apply Z.le_trans with (2 ^ 52 * 2 ^ ulp_exp Y).
    + apply rnd_le_representable; [lia|].
      apply representable_mul_pow2; lia.
    + unfold rnd. pose proof (pow2_pos _ HkY) as Hp.
      assert (2 ^ 52 <= rne_div Y (2 ^ ulp_exp Y)); [|nia].
      apply rne_div_ge_lower; [assumption|].
      rewrite HLY, pow2_split in HloY by lia. lia.
Qed.

Lemma to_deg_scaled_mono (X Y : Z) :
  0 <= X <= Y ->
  let '(d, m, s) := to_deg_scaled X in
  let '(d', m', s') := to_deg_scaled Y in
  d < d' \/ (d = d' /\ (m < m' \/ (m = m' /\ s <= s'))).
Proof.
  intros [HX HXY]. unfold to_deg_scaled.
  assert (HU : 0 < U) by (apply pow2_pos; lia).
  pose proof (Z.div_le_mono X Y U HU HXY) as Hd.
  destruct (Z.eq_dec (X / U) (Y / U)) as [Ed | Ed]; [right | left; lia].
  split; [assumption|].
  pose proof (Z.div_mod X U ltac:(lia)) as HdX.
  pose proof (Z.div_mod Y U ltac:(lia)) as HdY.
  pose proof (Z.mod_pos_bound X U HU) as HmX.
  assert (HF : 0 <= 60 * (X mod U) <= 60 * (Y mod U)) by nia.
  pose proof (rnd_mono _ _ HF) as HMF.
  pose proof (rnd_nonneg (60 * (X mod U)) ltac:(lia)) as HMF0.
  set (MF := rnd (60 * (X mod U))) in *.
  set (MF' := rnd (60 * (Y mod U))) in *.
  pose proof (Z.div_le_mono MF MF' U HU HMF) as Hm.
  destruct (Z.eq_dec (MF / U) (MF' / U)) as [Em | Em]; [right | left; lia].
  split; [assumption|].
  pose proof (Z.div_mod MF U ltac:(lia)) as HdM.
  pose proof (Z.div_mod MF' U ltac:(lia)) as HdM'.
  pose proof (Z.mod_pos_bound MF U HU) as HmM.
  assert (HG : 0 <= 60 * (MF mod U) <= 60 * (MF' mod U)) by nia.
  pose proof (rnd_mono _ _ HG) as HS1.
  pose proof (rnd_nonneg (60 * (MF mod U)) ltac:(lia)) as HS10.
  apply rne_div_mono; [assumption|].
  apply rnd_mono. lia.
Qed.

Lemma to_deg_bounds_aux (v : float) :
  valid v = true -> is_finite v = true -> fle fzero v = true ->
  exists d m s : Z,
    to_deg v = Ok ((d, 1), (m, 1), (s, 10000)) /\
    0 <= d /\ 0 <= m <= 59 /\ 0 <= s <= 600000.
Proof.
  intros Hv Hf Hle.
  destruct (nonneg_cases v Hv Hf Hle) as [-> | Hg].
  { exists 0, 0, 0. repeat split; lia. }
  rewrite (to_deg_good v Hg).
  pose proof (to_deg_scaled_bounds (scaled v) (scaled_nonneg v)
                (good_representable v Hg)) as Hb.
  destruct (to_deg_scaled (scaled v)) as [[d m] s].
  exists d, m, s. split; [reflexivity | tauto].
Qed.

(** X6.  [to_deg] preserves order: for non-negative finite [v <= w] the
    triple of [v] is lexicographically at most the triple of [w]. *)
Theorem to_deg_monotone (v w : float) :
  valid v = true -> valid w = true -> is_finite w = true ->
  fle fzero v = true -> fle v w = true ->
  exists t t' : dms,
    to_deg v = Ok t /\ to_deg w = Ok t' /\ dms_le t t'.
Proof.
  intros Hv Hw Hfw Hle Hvw.
  assert (Hfv : is_finite v = true).
  { apply (in_range_finite v fzero w); try assumption; reflexivity. }
  assert (Hle' : fle fzero w = true).
  { destruct v as [[|] | [|] | | [|] ? ?], w as [[|] | [|] | | [|] ? ?];
      try discriminate; reflexivity. }
  destruct (nonneg_cases v Hv Hfv Hle) as [-> | Hgv].
  - (* [v = -0.0] *)
    destruct (to_deg_bounds_aux w Hw Hfw Hle') as (d & m & s & Ht & Hd & Hm & Hs).
    eexists. exists ((d, 1), (m, 1), (s, 10000)).
    split; [reflexivity|]. split; [assumption|]. cbn. lia.
  - destruct (nonneg_cases w Hw Hfw Hle') as [-> | Hgw].
    + (* [w = -0.0]: then [v] is a zero *)
      destruct v as [[|] | [|] | | [|] ? ?]; try discriminate;
        do 2 eexists; (split; [reflexivity|]); (split; [reflexivity|]);
        cbn; lia.
    + pose proof (good_fle v w Hgv Hgw Hvw) as HX.
      rewrite (to_deg_good v Hgv), (to_deg_good w Hgw).
      pose proof (to_deg_scaled_mono (scaled v) (scaled w)
                    (conj (scaled_nonneg v) HX)) as Hmono.
      destruct (to_deg_scaled (scaled v)) as [[d m] s].
      destruct (to_deg_scaled (scaled w)) as [[d' m'] s'].
      do 2 eexists. split; [reflexivity|]. split; [reflexivity|].
      exact Hmono.
Qed.

(** ** The ends of a run *)

Lemma run_end_complete (C : collaborators) (w w' : world) (r : result unit)
    (path : string) (lat lon : float) (overwrite : bool) :
  add_gps_to_image C path lat lon overwrite w = (r, w') ->
  run_end C path lat lon overwrite w r w'.
Proof.
  intros Hrun.
  destruct (files w !! path) as [data |] eqn:Hf.
  2:{ rewrite (run_not_found C w path lat lon overwrite Hf) in Hrun.
      injection Hrun as <- <-. constructor. assumption. }
  destruct (image_open C data) as [[fmt ex] |] eqn:Ho.
  2:{ rewrite (run_open_fails C w path data lat lon overwrite Hf Ho) in Hrun.
      injection Hrun as <- <-. econstructor; eassumption. }
  destruct (String.eqb fmt "JPEG" || String.eqb fmt "TIFF") eqn:Hb.
  2:{ rewrite (run_unsupported C w path data fmt ex lat lon overwrite Hf Ho Hb)
        in Hrun.
      injection Hrun as <- <-.
      apply orb_false_iff in Hb as [Hj Ht].
      apply String.eqb_neq in Hj, Ht. econstructor; eassumption. }
  assert (Hfmt : fmt = "JPEG" \/ fmt = "TIFF").
  { apply orb_true_iff in Hb as [Hb | Hb]; apply String.eqb_eq in Hb; auto. }
  assert (Hl : (exists blob, ex = Some blob /\ truthy_bytes blob = true /\
                             piexif_load C blob = None) \/
               exists d evs, loads C ex d evs).
  { destruct ex as [blob |]; [destruct (truthy_bytes blob) eqn:Ht |].
    - destruct (piexif_load C blob) as [d |] eqn:Hl.
      + right. exists d, [EvLoad blob]. constructor; assumption.
      + left. exists blob. auto.
    - right. exists empty_exif, []. constructor. assumption.
    - right. exists empty_exif, []. constructor. }
  destruct Hl as [(blob & -> & Ht & Hl) | (d & evs & Hl)].
  { rewrite (run_load_fails C w path data fmt blob lat lon overwrite
               Hf Ho Hb Ht Hl) in Hrun.
    injection Hrun as <- <-. econstructor; eassumption. }
  rewrite (run_after_load C _ _ _ _ _ _ _ lat lon overwrite Hf Ho Hfmt Hl) in Hrun.
  cbv zeta in Hrun. cbn [trace] in Hrun.
  destruct (truthy_get (d !! "GPS") && negb overwrite) eqn:Hguard.
  { injection Hrun as <- <-. apply andb_true_iff in Hguard as [Hg Hov].
    apply negb_true_iff in Hov. eapply end_guard; eassumption. }
  destruct (gps_ifd_of lat lon) as [g | e] eqn:Hg.
  2:{ injection Hrun as <- <-. eapply end_convert; eassumption. }
  destruct (piexif_dump C (<["GPS" := Ifd g]> d)) as [exif_bytes |] eqn:Hd.
  2:{ injection Hrun as <- <-.
      replace {| files := files w;
                 trace := (trace w ++ EvOpen path :: evs) ++
                          [EvDump (<["GPS" := Ifd g]> d)] |}
        with (extend w (EvOpen path :: evs ++ [EvDump (<["GPS" := Ifd g]> d)]))
        by (unfold extend; rewrite <- app_assoc; reflexivity).
      eapply end_dump_fails; eassumption. }
  destruct (piexif_insert C exif_bytes data) as [data' [|]] eqn:Hi;
    injection Hrun as <- <-; rewrite <- app_assoc; cbn [app].
  - eapply end_ok; eassumption.
  - eapply end_insert_fails; eassumption.
Qed.

(** ** What the conversions can raise *)

Lemma bind_raises {A B : Type} (m : result A) (k : A -> result B) (e : exn) :
  (x ← m; k x) = Raise e ->
  m = Raise e \/ exists a, m = Ok a /\ k a = Raise e.
Proof.
  destruct m as [a | e0]; unfold mbind, result_bind; cbv beta iota; intros H.
  - right. exists a. auto.
  - left. congruence.
Qed.

Lemma py_int_raises (x : float) (e : exn) :
  py_int x = Raise e -> e = ValueError FloatNaNToInteger \/ e = OverflowError.
Proof. destruct x; cbn; intros H; inversion H; auto. Qed.

Lemma py_round_raises (x : float) (e : exn) :
  py_round x = Raise e -> e = ValueError FloatNaNToInteger \/ e = OverflowError.
Proof. destruct x; cbn; intros H; inversion H; auto. Qed.

Lemma float_of_int_raises (z : Z) (e : exn) :
  float_of_int z = Raise e -> e = OverflowError.
Proof.
  unfold float_of_int. destruct (Z2F z); intros H; inversion H; reflexivity.
Qed.

Lemma fsub_int_raises (x : float) (z : Z) (e : exn) :
  fsub_int x z = Raise e -> e = OverflowError.
Proof.
  unfold fsub_int. intros H.
  apply bind_raises in H as [H | (y & _ & H)]; [| discriminate].
  exact (float_of_int_raises z e H).
Qed.

Lemma fmul_int_raises (x : float) (z : Z) (e : exn) :
  fmul_int x z = Raise e -> e = OverflowError.
Proof.
  unfold fmul_int. intros H.
  apply bind_raises in H as [H | (y & _ & H)]; [| discriminate].
  exact (float_of_int_raises z e H).
Qed.

Lemma to_deg_raises (v : float) (e : exn) :
  to_deg v = Raise e -> e = ValueError FloatNaNToInteger \/ e = OverflowError.
Proof.
  unfold to_deg. intros H.
  apply bind_raises in H as [H | (deg & _ & H)];
    [exact (py_int_raises _ _ H) |].
  apply bind_raises in H as [H | (frac & _ & H)];
    [right; exact (fsub_int_raises _ _ _ H) |].
  apply bind_raises in H as [H | (min_float & _ & H)];
    [right; exact (fmul_int_raises _ _ _ H) |].
  apply bind_raises in H as [H | (minutes & _ & H)];
    [exact (py_int_raises _ _ H) |].
  apply bind_raises in H as [H | (rest & _ & H)];
    [right; exact (fsub_int_raises _ _ _ H) |].
  apply bind_raises in H as [H | (sec60 & _ & H)];
    [right; exact (fmul_int_raises _ _ _ H) |].
  apply bind_raises in H as [H | (sec_scaled & _ & H)];
    [right; exact (fmul_int_raises _ _ _ H) |].
  apply bind_raises in H as [H | (sec & _ & H)];
    [exact (py_round_raises _ _ H) | discriminate].
Qed.

Lemma gps_ifd_of_raises (lat lon : float) (e : exn) :
  gps_ifd_of lat lon = Raise e ->
  e = ValueError FloatNaNToInteger \/ e = OverflowError.
Proof.
  unfold gps_ifd_of. intros H.
  apply bind_raises in H as [H | (lat_dms & _ & H)];
    [exact (to_deg_raises _ _ H) |].
  apply bind_raises in H as [H | (lon_dms & _ & H)];
    [exact (to_deg_raises _ _ H) | discriminate].
Qed.

Lemma to_deg_fabs_not_finite (x : float) :
  is_finite x = false -> exists e, to_deg (fabs x) = Raise e.
Proof.
  destruct x; cbn; intros H; try discriminate; eexists; reflexivity.
Qed.

Lemma gps_ifd_of_not_finite (lat lon : float) :
  is_finite lat = false \/ is_finite lon = false ->
  exists e, gps_ifd_of lat lon = Raise e.
Proof.
  intros H. unfold gps_ifd_of.
  destruct (to_deg (fabs lat)) as [lat_dms | e] eqn:Hlat.
  2:{ exists e. reflexivity. }
  destruct H as [H | H].
  - destruct (to_deg_fabs_not_finite lat H) as [e He]. congruence.
  - destruct (to_deg_fabs_not_finite lon H) as [e He].
    exists e. cbn. rewrite He. reflexivity.
Qed.


Lemma empty_exif_not_truthy : truthy_get (empty_exif !! "GPS") = false.
Proof. reflexivity. Qed.

Lemma loads_cases (C : collaborators) (ex : option string)
    (d : gmap string group) (evs : list event) :
  loads C ex d evs ->
  (exists blob, ex = Some blob /\ truthy_bytes blob = true /\
                piexif_load C blob = Some d /\ evs = [EvLoad blob]) \/
  (d = empty_exif /\ evs = [] /\
   (ex = None \/ exists blob, ex = Some blob /\ truthy_bytes blob = false)).
Proof.
  intros [blob d' Ht Hl | blob Ht |].
  - left. exists blob. auto.
  - right. repeat split; eauto.
  - right. auto.
Qed.

(** ** Further properties of [add_gps_to_image] *)

(** X7.  [add_gps_to_image] raises [FileNotFoundError] exactly when the
    path is not an existing file, and then no collaborator has been called
    and nothing has changed. *)
Theorem file_not_found_iff_missing (C : collaborators) (w w' : world)
    (r : result unit) (path : string) (lat lon : float) (overwrite : bool) :
  add_gps_to_image C path lat lon overwrite w = (r, w') ->
  (r = Raise FileNotFoundError <-> files w !! path = None) /\
  (files w !! path = None -> w' = w).
Proof.
  intros Hrun. apply run_end_complete in Hrun.
  destruct Hrun as [Hf | data Hf Ho | data fmt ex Hf Ho Hj Ht
    | data fmt blob Hf Ho Hfmt Ht Hl | data fmt ex d evs Hf Ho Hfmt Hl Hg Hov
    | data fmt ex d evs e Hf Ho Hfmt Hl Hguard Hg
    | data fmt ex d evs g Hf Ho Hfmt Hl Hguard Hg Hd
    | data fmt ex d evs g b data' Hf Ho Hfmt Hl Hguard Hg Hd Hi
    | data fmt ex d evs g b data' Hf Ho Hfmt Hl Hguard Hg Hd Hi];
    (split; [split |]); intros H; try congruence; try reflexivity.
  apply gps_ifd_of_raises in Hg. injection H as ->.
  destruct Hg; discriminate.
Qed.


Ltac run_ends Hrun :=
  apply run_end_complete in Hrun;
  destruct Hrun as [Hf | data Hf Ho | data fmt ex Hf Ho Hj Ht
    | data fmt blob Hf Ho Hfmt Ht Hl | data fmt ex d evs Hf Ho Hfmt Hl Hg Hov
    | data fmt ex d evs e Hf Ho Hfmt Hl Hguard Hg
    | data fmt ex d evs g Hf Ho Hfmt Hl Hguard Hg Hd
    | data fmt ex d evs g b data' Hf Ho Hfmt Hl Hguard Hg Hd Hi
    | data fmt ex d evs g b data' Hf Ho Hfmt Hl Hguard Hg Hd Hi].

Lemma loads_events (C : collaborators) (ex : option string)
    (d : gmap string group) (evs : list event) :
  loads C ex d evs -> evs = [] \/ exists blob, evs = [EvLoad blob].
Proof. intros [blob d' Ht Hl | blob Ht |]; eauto. Qed.

(** X9.  The calls of one run are made in pipeline order, each at most
    once: open, load, dump, insert, print.  The confirmation line is
    printed exactly when the run returns, every call names the given path,
    and the bytes inserted are the bytes [piexif.dump] returned for a tree
    dumped in the same run. *)
Theorem calls_in_pipeline_order (C : collaborators) (w w' : world)
    (r : result unit) (path : string) (lat lon : float) (overwrite : bool) :
  add_gps_to_image C path lat lon overwrite w = (r, w') ->
  exists evs,
    trace w' = trace w ++ evs /\
    StronglySorted lt (map rank evs) /\
    (r = Ok tt <-> In (EvPrint path) evs) /\
    (forall e, In e evs ->
       match e with
       | EvOpen p | EvPrint p => p = path
       | EvInsert exif_bytes p =>
           p = path /\
           exists d, In (EvDump d) evs /\ piexif_dump C d = Some exif_bytes
       | EvLoad _ | EvDump _ => True
       end).
Proof.
  intros Hrun. run_ends Hrun;
    try (apply loads_events in Hl as [-> | [blob ->]]); cbn [trace extend app].
  1:{ exists []. rewrite app_nil_r. split; [reflexivity |].
      split; [constructor |]. split; [| intros e []].
      split; [discriminate | intros []]. }
  all: eexists; split; [reflexivity |].
  all: split; [cbn; repeat constructor | split].
  all: try (split; [discriminate | cbn; intros H; intuition discriminate]).
  all: try (split; [intros _; cbn; tauto | reflexivity]).
  all: intros ev Hin; cbn in Hin;
    repeat (destruct Hin as [<- | Hin]; [try exact I; try reflexivity |]);
    try contradiction.
  all: split; [reflexivity | eexists; split; [| eassumption]; cbn; tauto].
Qed.

(** X10.  With a NaN or an infinity as either coordinate a run never
    returns and never reaches [piexif.dump] or [piexif.insert]: it raises
    after at most the open and load calls, and every file is as before. *)
Theorem non_finite_coordinate_never_written (C : collaborators)
    (w w' : world) (r : result unit) (path : string) (lat lon : float)
    (overwrite : bool) :
  is_finite lat = false \/ is_finite lon = false ->
  add_gps_to_image C path lat lon overwrite w = (r, w') ->
  (exists e, r = Raise e /\ e <> CollaboratorError PiexifDump /\
             e <> CollaboratorError PiexifInsert) /\
  files w' = files w /\
  exists evs, trace w' = trace w ++ evs /\
              Forall (fun ev => (rank ev <= 1)%nat) evs.
Proof.
  intros Hnf Hrun. destruct (gps_ifd_of_not_finite lat lon Hnf) as [e0 He0].
  run_ends Hrun; try congruence;
    try (apply loads_events in Hl as [-> | [blob ->]]);
    cbn [trace files extend].
  all: split; [eexists; split; [reflexivity | split; try discriminate] |].
  all: try (apply gps_ifd_of_raises in Hg; destruct Hg; subst; discriminate).
  1: split; [reflexivity | exists []; rewrite app_nil_r; auto].
  all: split; [reflexivity |].
  all: eexists; split; [reflexivity | repeat constructor].
Qed.

(** X11.  [RuntimeError] has a single cause: it is raised only when
    [overwrite] is false and [piexif.load] was called on a non-empty EXIF
    blob and returned a tree with a non-empty GPS group; the run has then
    made exactly the open and load calls and changed no file.  So a run
    with [overwrite] true, or on an image without EXIF data, never raises
    it. *)
Theorem runtime_error_only_from_loaded_gps (C : collaborators)
    (w w' : world) (path : string) (lat lon : float) (overwrite : bool) :
  add_gps_to_image C path lat lon overwrite w = (Raise RuntimeError, w') ->
  overwrite = false /\
  exists data fmt blob d,
    files w !! path = Some data /\
    image_open C data = Some (fmt, Some blob) /\
    truthy_bytes blob = true /\
    piexif_load C blob = Some d /\
    truthy_get (d !! "GPS") = true /\
    w' = extend w [EvOpen path; EvLoad blob].
Proof.
  intros Hrun.
  remember (Raise RuntimeError) as r eqn:Hr.
  run_ends Hrun; try discriminate.
  - split; [assumption |].
    destruct (loads_cases C ex d evs Hl)
      as [(blob & -> & Ht & Hload & ->) | (-> & _ & _)].
    + exists data, fmt, blob, d. auto 10.
    + rewrite empty_exif_not_truthy in Hg. discriminate.
  - injection Hr as ->. apply gps_ifd_of_raises in Hg.
    destruct Hg; discriminate.
Qed.

(** X12.  For an image without EXIF data ([info.get('exif')] is [None] or
    empty) [piexif.load] is never called, the [overwrite] flag makes no
    difference, [RuntimeError] is never raised, and the tree handed to
    [piexif.dump] is the fresh empty tree with only its GPS group set. *)
Theorem no_exif_starts_from_empty_tree (C : collaborators) (w w' : world)
    (r : result unit) (path data fmt : string) (ex : option string)
    (lat lon : float) (overwrite : bool) :
  files w !! path = Some data ->
  image_open C data = Some (fmt, ex) ->
  match ex with None => True | Some blob => truthy_bytes blob = false end ->
  add_gps_to_image C path lat lon overwrite w = (r, w') ->
  add_gps_to_image C path lat lon (negb overwrite) w = (r, w') /\
  r <> Raise RuntimeError /\
  exists evs,
    trace w' = trace w ++ EvOpen path :: evs /\
    (forall blob, ~ In (EvLoad blob) evs) /\
    (forall d, In (EvDump d) evs ->
       exists g, gps_ifd_of lat lon = Ok g /\
                 d = <["GPS" := Ifd g]> empty_exif).
Proof.
  intros Hf Ho Hex Hrun.
  assert (Hl : loads C ex empty_exif []).
  { destruct ex as [blob |]; constructor. assumption. }
  destruct (String.eqb fmt "JPEG" || String.eqb fmt "TIFF") eqn:Hb.
  2:{ rewrite (run_unsupported C w path data fmt ex lat lon _ Hf Ho Hb).
      rewrite (run_unsupported C w path data fmt ex lat lon _ Hf Ho Hb) in Hrun.
      injection Hrun as <- <-. split; [reflexivity |].
      split; [discriminate |]. exists []. cbn [trace].
      split; [reflexivity |]. split; intros ? [].  }
  assert (Hfmt : fmt = "JPEG" \/ fmt = "TIFF").
  { apply orb_true_iff in Hb as [Hb | Hb]; apply String.eqb_eq in Hb; auto. }
  pose proof (run_after_load C w path data fmt ex empty_exif [] lat lon
                overwrite Hf Ho Hfmt Hl) as E1.
  pose proof (run_after_load C w path data fmt ex empty_exif [] lat lon
                (negb overwrite) Hf Ho Hfmt Hl) as E2.
  cbv zeta in E1, E2. rewrite empty_exif_not_truthy in E1, E2.
  cbn [andb] in E1, E2. rewrite E2, <- E1. split; [assumption |].
  rewrite E1 in Hrun. clear E1 E2.
  destruct (gps_ifd_of lat lon) as [g | e] eqn:Hg.
  2:{ injection Hrun as <- <-. split.
      - intros H. injection H as ->. apply gps_ifd_of_raises in Hg.
        destruct Hg; discriminate.
      - exists []. cbn [trace]. split; [reflexivity |]. split; intros ? []. }
  destruct (piexif_dump C (<["GPS" := Ifd g]> empty_exif)) as [b |] eqn:Hd.
  2:{ injection Hrun as <- <-. split; [discriminate |].
      eexists. cbn [trace]. rewrite <- app_assoc. cbn [app].
      split; [reflexivity |].
      split; intros ? [H | []]; [discriminate |].
      injection H as <-. eauto. }
  destruct (piexif_insert C b data) as [data' [|]];
    injection Hrun as <- <-; (split; [discriminate |]);
    eexists; cbn [trace]; rewrite <- app_assoc; cbn [app];
    (split; [reflexivity |]); split;
    intros ? Hin; cbn in Hin; intuition try discriminate.
  all: match goal with H : EvDump _ = EvDump _ |- _ => injection H as <- end;
    eauto.
Qed.



Lemma fabs_fneg (x : float) : fabs (fneg x) = fabs x.
Proof. destruct x; reflexivity. Qed.

Lemma to_deg_fabs_ok_cases (x : float) (t : dms) :
  to_deg (fabs x) = Ok t ->
  (exists s, x = S754_zero s) \/ exists s m e, x = S754_finite s m e.
Proof.
  destruct x as [s | s | | s m e]; intros H; try discriminate; eauto.
Qed.

(** X15.  Mirroring a coordinate changes nothing in the GPS IFD but the
    hemisphere letter: the rationals are those of the absolute value.  The
    letter flips for every non-zero coordinate, while [0.0] and [-0.0]
    are both north and east. *)
Theorem gps_ifd_of_mirror (lat lon : float) (g : gmap Z tag_value) :
  gps_ifd_of lat lon = Ok g ->
  gps_ifd_of (fneg lat) lon =
    Ok (<[GPSIFD.GPSLatitudeRef :=
            TagBytes (if fle (Z2F 0) (fneg lat) then "N" else "S")]> g) /\
  gps_ifd_of lat (fneg lon) =
    Ok (<[GPSIFD.GPSLongitudeRef :=
            TagBytes (if fle (Z2F 0) (fneg lon) then "E" else "W")]> g) /\
  (forall x, x = lat \/ x = lon ->
     if is_zero x then fle (Z2F 0) x = true /\ fle (Z2F 0) (fneg x) = true
     else fle (Z2F 0) (fneg x) = negb (fle (Z2F 0) x)).
Proof.
  unfold gps_ifd_of. rewrite !fabs_fneg.
  destruct (to_deg (fabs lat)) as [lat_dms |] eqn:Hlat; [| discriminate].
  destruct (to_deg (fabs lon)) as [lon_dms |] eqn:Hlon; [| discriminate].
  unfold mbind, result_bind. cbv beta iota zeta. intros H. injection H as <-.
  split; [| split].
  - rewrite insert_insert_eq. reflexivity.
  - apply f_equal.
    rewrite (insert_insert_ne _ GPSIFD.GPSLongitudeRef GPSIFD.GPSLatitudeRef)
      by discriminate.
    rewrite (insert_insert_ne _ GPSIFD.GPSLongitudeRef GPSIFD.GPSLatitude)
      by discriminate.
    rewrite insert_insert_eq. reflexivity.
  - intros x [-> | ->].
    + destruct (to_deg_fabs_ok_cases lat _ Hlat) as [[s ->] | (s & m & e & ->)];
        destruct s; cbn; auto.
    + destruct (to_deg_fabs_ok_cases lon _ Hlon) as [[s ->] | (s & m & e & ->)];
        destruct s; cbn; auto.
Qed.

(** ** The entry point *)

Lemma main_unfold (C : collaborators) (class_of : collaborator -> clause)
    (args : Namespace.t) (w : world) :
  main C class_of args w =
  match files w !! Namespace.image args with
  | None => (Ok (2, Some (FileNotFoundLine (Namespace.image args))), w)
  | Some _ =>
      if negb (between (-90) 90 (Namespace.lat args))
      then (Ok (3, Some LatitudeLine), w)
      else if negb (between (-180) 180 (Namespace.lon args))
      then (Ok (4, Some LongitudeLine), w)
      else
        match add_gps_to_image C (Namespace.image args) (Namespace.lat args)
                (Namespace.lon args) (Namespace.force args) w with
        | (Ok _, w') => (Ok (0, None), w')
        | (Raise e, w') =>
            (Ok (exit_status (matching_clause class_of e),
                 Some (handler_line (matching_clause class_of e) e)), w')
        end
  end.
Proof.
  unfold main. msimpl.
  destruct (files w !! Namespace.image args) as [data |]; cbn [negb];
    [| reflexivity].
  destruct (between (-90) 90 (Namespace.lat args)); cbn [negb];
    [| reflexivity].
  destruct (between (-180) 180 (Namespace.lon args)); reflexivity.
Qed.







(** X19.  Exit status 5 means the overwrite guard, unless PIL or piexif
    itself raised a [RuntimeError]: [--force] was not given, the line
    printed is the guard's message, and no file has changed. *)
Theorem main_status_5 (C : collaborators)
    (class_of : collaborator -> clause) (args : Namespace.t) (w w' : world)
    (ln : option line) :
  main C class_of args w = (Ok (5, ln), w') ->
  (exists c, class_of c = ExceptRuntimeError /\
             ln = Some (ErrorLine (CollaboratorError c))) \/
  (Namespace.force args = false /\ ln = Some (ErrorLine RuntimeError) /\
   files w' = files w).
Proof.
  intros Hmain. rewrite main_unfold in Hmain.
  destruct (files w !! Namespace.image args) as [data0 |] eqn:Hf0;
    [| discriminate].
  destruct (between (-90) 90 (Namespace.lat args)); cbn [negb] in Hmain;
    [| discriminate].
  destruct (between (-180) 180 (Namespace.lon args)); cbn [negb] in Hmain;
    [| discriminate].
  destruct (add_gps_to_image C _ _ _ _ w) as [[[] | x] w1] eqn:Hrun;
    [discriminate |].
  injection Hmain as Hst <- <-.
  destruct x as [| why | | | c]; cbn in Hst; try discriminate.
  - right. cbn. split; [| split; [reflexivity |]].
    + remember (Raise RuntimeError) as r eqn:Hr.
      run_ends Hrun; try discriminate; [assumption |].
      injection Hr as ->. apply gps_ifd_of_raises in Hg.
      destruct Hg; discriminate.
    + remember (Raise RuntimeError) as r eqn:Hr.
      run_ends Hrun; try discriminate; reflexivity.
  - left. exists c. cbn. destruct (class_of c); cbn in Hst; try discriminate.
    auto.
Qed.

(** ** Worked examples *)

(** The products of [to_deg] are float products: just below 1/60 of a
    degree the exact product [v * 60] is below 1, its float is [1.0], and
    the minutes are 1. *)
Example minutes_of_rounded_product :
  let v := S754_finite false 4803839602528529 (-58) in
  valid v = true /\
  to_deg v = Ok ((0, 1), (1, 1), (0, 10000)) /\
  (SF2Q v * 60 < 1)%Q.
Proof. repeat split. Qed.

Lemma to_deg_spec_witness :
  to_deg lat_demo = Ok ((9, 1), (34, 1), (287004, 10000)).
Proof.
  exact (proj1 (to_deg_spec lat_demo eq_refl eq_refl eq_refl)).
Defined.

Lemma to_deg_reconstructs_witness :
  exists t : dms,
    to_deg lon_demo = Ok t /\
    (Qabs (dms_to_degrees t - SF2Q lon_demo) <= (1 / 10000) / 3600)%Q.
Proof.
  exact (to_deg_reconstructs lon_demo eq_refl eq_refl eq_refl).
Defined.

Lemma to_deg_bounds_witness :
  exists d m s : Z,
    to_deg v_099999999 = Ok ((d, 1), (m, 1), (s, 10000)) /\
    0 <= m <= 59 /\ 0 <= s <= 600000.
Proof.
  exact (proj1 (to_deg_bounds v_099999999 eq_refl eq_refl eq_refl)).
Defined.

Lemma unsupported_format_rejected_witness :
  add_gps_to_image demo "a.png" lat_demo lon_demo true (world_of "a.png" "png") =
  (Raise (ValueError (UnsupportedFormat "PNG")),
   {| files := {["a.png" := "png"]}; trace := [EvOpen "a.png"] |}).
Proof.
  apply (unsupported_format_rejected demo (world_of "a.png" "png")
           "a.png" "png" "PNG" None lat_demo lon_demo true);
    [reflexivity | reflexivity | discriminate | discriminate].
Defined.

Lemma gps_already_present_witness :
  add_gps_to_image demo "a.jpg" lat_demo lon_demo false (world_of "a.jpg" "gps") =
  (Raise RuntimeError,
   {| files := {["a.jpg" := "gps"]};
      trace := [EvOpen "a.jpg"; EvLoad "gps"] |}).
Proof.
  apply (gps_already_present demo (world_of "a.jpg" "gps") "a.jpg" "gps"
           "JPEG" (Some "gps") (demo_tree true) [EvLoad "gps"]
           {[GPSIFD.GPSLatitudeRef := TagBytes "S"]}
           GPSIFD.GPSLatitudeRef (TagBytes "S") lat_demo lon_demo);
    [reflexivity | reflexivity | left; reflexivity
    | constructor; reflexivity | reflexivity | reflexivity].
Defined.

Lemma empty_gps_not_guarded_witness :
  add_gps_to_image demo "a.jpg" lat_demo lon_demo false (world_of "a.jpg" "plain") =
  add_gps_to_image demo "a.jpg" lat_demo lon_demo true (world_of "a.jpg" "plain").
Proof.
  apply (empty_gps_not_guarded demo (world_of "a.jpg" "plain") "a.jpg" "plain"
           "JPEG" (Some "plain") (demo_tree false) [EvLoad "plain"]
           gps_demo lat_demo lon_demo);
    [reflexivity | reflexivity | left; reflexivity
    | constructor; reflexivity | reflexivity | vm_compute; reflexivity].
Defined.

Lemma non_gps_groups_preserved_witness :
  exists g exif_bytes,
    gps_ifd_of lat_demo lon_demo = Ok g /\
    piexif_dump demo (<["GPS" := Ifd g]> (demo_tree false)) = Some exif_bytes /\
    <["GPS" := Ifd g]> (demo_tree false) !! "0th" = demo_tree false !! "0th".
Proof.
  destruct (non_gps_groups_preserved demo (world_of "a.jpg" "plain") after_first
              "a.jpg" "plain" "JPEG" "plain" (demo_tree false)
              lat_demo lon_demo true)
    as (g & b & Hg & Hd & _ & _ & _ & _ & H0 & _);
    [vm_compute; reflexivity | reflexivity | reflexivity | reflexivity
    | reflexivity |].
  exists g, b. repeat split; assumption.
Defined.

Lemma overwrite_twice_same_gps_witness :
  exists g,
    gps_ifd_of lat_demo lon_demo = Ok g /\ size g = 4%nat /\
    written_gps (trace after_first) = [Some (Ifd g)] /\
    written_gps (trace after_second) = [Some (Ifd g); Some (Ifd g)].
Proof.
  destruct (overwrite_twice_same_gps demo (world_of "a.jpg" "plain")
              after_first after_second "a.jpg" lat_demo lon_demo)
    as (g & Hg & Hs & H1 & H2);
    [vm_compute; reflexivity | vm_compute; reflexivity |].
  exists g. rewrite H2, H1. repeat split; assumption.
Defined.

Lemma gps_ifd_entries_witness :
  exists g, gps_ifd_of lat_demo lon_demo = Ok g /\ size g = 4%nat.
Proof.
  destruct (gps_ifd_entries lat_demo lon_demo eq_refl eq_refl eq_refl eq_refl
              eq_refl eq_refl)
    as (t1 & t2 & g & _ & _ & Hg & Hs & _).
  exists g. split; assumption.
Defined.

Lemma gps_group_noninterference_witness :
  Some (Ifd gps_demo) = Some (Ifd gps_demo) /\
  exists g, gps_ifd_of lat_demo lon_demo = Ok g /\
            Some (Ifd gps_demo) = Some (Ifd g).
Proof.
  apply (gps_group_noninterference demo demo
           (world_of "a.jpg" "plain") after_first
           (world_of "b.jpg" "gps")
           (add_gps_to_image demo "b.jpg" lat_demo lon_demo true
              (world_of "b.jpg" "gps")).2
           (Ok tt) (Ok tt) "a.jpg" "b.jpg" true true lat_demo lon_demo);
    vm_compute; reflexivity.
Defined.

Lemma to_deg_raises_iff_not_finite_witness :
  ((exists t, to_deg lat_demo = Ok t) <-> is_finite lat_demo = true) /\
  (lat_demo = S754_nan ->
   to_deg lat_demo = Raise (ValueError FloatNaNToInteger)) /\
  (forall s, lat_demo = S754_infinity s ->
             to_deg lat_demo = Raise OverflowError).
Proof.
  exact (to_deg_raises_iff_not_finite lat_demo eq_refl).
Defined.

Lemma to_deg_whole_degrees_witness :
  to_deg (Z2F 90) = Ok ((90, 1), (0, 1), (0, 10000)).
Proof.
  apply (to_deg_whole_degrees 90). split; [discriminate | reflexivity].
Defined.

Lemma to_deg_within_bound_witness :
  exists d m s : Z,
    to_deg lat_demo = Ok ((d, 1), (m, 1), (s, 10000)) /\
    0 <= d <= 90 /\ 0 <= m <= 59 /\ 0 <= s <= 600000 /\
    (d = 90 -> m = 0 /\ s = 0) /\
    (0 <= dms_to_degrees ((d, 1%Z), (m, 1%Z), (s, 10000%Z)) <= inject_Z 90)%Q.
Proof.
  apply (to_deg_within_bound lat_demo 90);
    [split; [discriminate | reflexivity] | reflexivity | reflexivity
    | reflexivity].
Defined.

Lemma to_deg_half_unit_accuracy_witness :
  exists t : dms,
    to_deg v_099999999 = Ok t /\
    (Qabs (dms_to_degrees t - SF2Q v_099999999) <=
     (50000001 # 100000000) * ((1 / 10000) / 3600))%Q.
Proof.
  exact (to_deg_half_unit_accuracy v_099999999 eq_refl eq_refl eq_refl).
Defined.

Lemma to_deg_monotone_witness :
  exists t t' : dms,
    to_deg lat_demo = Ok t /\ to_deg lon_demo = Ok t' /\ dms_le t t'.
Proof.
  exact (to_deg_monotone lat_demo lon_demo eq_refl eq_refl eq_refl eq_refl
           eq_refl).
Defined.

Lemma file_not_found_iff_missing_witness :
  (@Raise unit FileNotFoundError = Raise FileNotFoundError <->
   files (world_of "a.jpg" "plain") !! "b.jpg" = None) /\
  (files (world_of "a.jpg" "plain") !! "b.jpg" = None ->
   world_of "a.jpg" "plain" = world_of "a.jpg" "plain").
Proof.
  apply (file_not_found_iff_missing demo (world_of "a.jpg" "plain")
           (world_of "a.jpg" "plain") (Raise FileNotFoundError) "b.jpg"
           lat_demo lon_demo false).
  reflexivity.
Defined.


Lemma calls_in_pipeline_order_witness :
  exists evs,
    trace after_first = trace (world_of "a.jpg" "plain") ++ evs /\
    StronglySorted lt (map rank evs) /\
    (@Ok unit tt = Ok tt <-> In (EvPrint "a.jpg") evs).
Proof.
  destruct (calls_in_pipeline_order demo (world_of "a.jpg" "plain")
              after_first (Ok tt) "a.jpg" lat_demo lon_demo true)
    as (evs & Ht & Hs & Hp & _); [vm_compute; reflexivity |].
  exists evs. auto.
Defined.

Lemma non_finite_coordinate_never_written_witness :
  files (add_gps_to_image demo "a.jpg" S754_nan lon_demo true
           (world_of "a.jpg" "plain")).2 =
  files (world_of "a.jpg" "plain").
Proof.
  destruct (non_finite_coordinate_never_written demo
              (world_of "a.jpg" "plain")
              (add_gps_to_image demo "a.jpg" S754_nan lon_demo true
                 (world_of "a.jpg" "plain")).2
              (add_gps_to_image demo "a.jpg" S754_nan lon_demo true
                 (world_of "a.jpg" "plain")).1
              "a.jpg" S754_nan lon_demo true)
    as (_ & H & _); [left; reflexivity | apply surjective_pairing | exact H].
Defined.

Lemma runtime_error_only_from_loaded_gps_witness :
  false = false /\
  exists data fmt blob d,
    files (world_of "a.jpg" "gps") !! "a.jpg" = Some data /\
    image_open demo data = Some (fmt, Some blob) /\
    truthy_bytes blob = true /\
    piexif_load demo blob = Some d /\
    truthy_get (d !! "GPS") = true /\
    extend (world_of "a.jpg" "gps") [EvOpen "a.jpg"; EvLoad "gps"] =
    extend (world_of "a.jpg" "gps") [EvOpen "a.jpg"; EvLoad blob].
Proof.
  apply (runtime_error_only_from_loaded_gps demo (world_of "a.jpg" "gps")
           (extend (world_of "a.jpg" "gps") [EvOpen "a.jpg"; EvLoad "gps"])
           "a.jpg" lat_demo lon_demo false).
  vm_compute. reflexivity.
Defined.

Lemma no_exif_starts_from_empty_tree_witness :
  exists evs,
    trace (add_gps_to_image demo "a.jpg" lat_demo lon_demo false
             (world_of "a.jpg" "")).2 =
    trace (world_of "a.jpg" "") ++ EvOpen "a.jpg" :: evs /\
    (forall blob, ~ In (EvLoad blob) evs).
Proof.
  destruct (no_exif_starts_from_empty_tree demo (world_of "a.jpg" "")
              (add_gps_to_image demo "a.jpg" lat_demo lon_demo false
                 (world_of "a.jpg" "")).2
              (add_gps_to_image demo "a.jpg" lat_demo lon_demo false
                 (world_of "a.jpg" "")).1
              "a.jpg" "" "JPEG" (Some "") lat_demo lon_demo false)
    as (_ & _ & evs & Ht & Hn & _);
    [reflexivity | reflexivity | reflexivity | apply surjective_pairing |].
  exists evs. auto.
Defined.




Lemma gps_ifd_of_mirror_witness :
  gps_ifd_of (fneg lat_demo) lon_demo =
    Ok (<[GPSIFD.GPSLatitudeRef :=
            TagBytes (if fle (Z2F 0) (fneg lat_demo) then "N" else "S")]>
          gps_demo).
Proof.
  destruct (gps_ifd_of_mirror lat_demo lon_demo gps_demo) as (H & _);
    [vm_compute; reflexivity | exact H].
Defined.




Lemma main_status_5_witness :
  (exists c, class_demo c = ExceptRuntimeError /\
             Some (ErrorLine RuntimeError) =
             Some (ErrorLine (CollaboratorError c))) \/
  (Namespace.force (args_demo lat_demo lon_demo false) = false /\
   Some (ErrorLine RuntimeError) = Some (ErrorLine RuntimeError) /\
   files (extend (world_of "a.jpg" "gps") [EvOpen "a.jpg"; EvLoad "gps"]) =
   files (world_of "a.jpg" "gps")).
Proof.
  apply (main_status_5 demo class_demo (args_demo lat_demo lon_demo false)
           (world_of "a.jpg" "gps")
           (extend (world_of "a.jpg" "gps") [EvOpen "a.jpg"; EvLoad "gps"])
           (Some (ErrorLine RuntimeError))).
  vm_compute. reflexivity.
Defined.
